(** * BluetoothAudio: a shallow embedding of [bluetooth_audio.py]

    The development follows the Python module top to bottom: the values the
    code manipulates (bytes objects, [struct] packing, Python numbers), the
    exceptions it can raise, the sample-format conversions of [read] and
    [write], the tone generator of [beep], the channel resolver, the AT
    command loop and the supervisor loop.

    Conventions.
    - A Python [bytes] object is a [list byte]; iterating over it yields the
      integers [0..255] ([byte_val]).
    - A Python [int] is a [Z].  A Python [float] is an IEEE 754 binary64
      value: a finite one is kept by the rational it denotes ([Q]), next to
      the infinities and NaN, and every float operation rounds its exact
      result to the nearest double, ties to even.  [int(x)] truncates towards
      zero and [round(x)] rounds half to even, as in Python 3.
    - The arguments of [beep] are Python numbers, an [int] or a [float]
      each ([num]).
    - A [logging.warning] call is an event of the trace; the [info] and
      [debug] calls are left out.
    - Code that can raise returns an [outcome]; the sockets of the Bluetooth
      host stack are external, so every call into them takes its result from
      an explicit argument (an oracle) and records what it did in a trace. *)

From Stdlib Require Import ZArith QArith Qminmax Qabs Qpower List Bool Lia Lqa.
From Stdlib Require Import Strings.Byte Strings.String Strings.Ascii.
Import ListNotations.

Local Open Scope Z_scope.

(** ** Exceptions *)

(** The exception classes that the modelled code can raise. *)
Inductive exn : Type :=
| BluetoothError (msg : string)  (* bluetooth.btcommon.BluetoothError *)
| StructError                    (* struct.error *)
| ZeroDivisionError              (* division or modulo by zero *)
| UnicodeDecodeError             (* bytes.decode('utf8') on malformed input *)
| AttributeError                 (* method call on None *)
| OverflowError                  (* int too large for a float, int(inf) *)
| ValueError.                    (* int(nan), math.sin(inf) *)

Inductive outcome (A : Type) : Type :=
| Return (a : A)
| Raise (e : exn).

Arguments Return {A} a.
Arguments Raise {A} e.

Definition bind {A B : Type} (m : outcome A) (k : A -> outcome B) : outcome B :=
  match m with
  | Return a => k a
  | Raise e => Raise e
  end.

Declare Scope exn_scope.
Delimit Scope exn_scope with exn.
Notation "x <- m ;; k" := (bind m (fun x => k))
  (at level 61, m at next level, right associativity) : exn_scope.
Notation "' p <- m ;; k" := (bind m (fun x => match x with p => k end))
  (at level 61, p pattern, m at next level, right associativity) : exn_scope.
Local Open Scope exn_scope.

(** [for x in xs: acc = body(acc, x)], stopping at the first exception. *)
Fixpoint for_each {A S : Type} (body : S -> A -> outcome S) (xs : list A) (acc : S)
  : outcome S :=
  match xs with
  | [] => Return acc
  | x :: xs' => acc' <- body acc x ;; for_each body xs' acc'
  end.

(** [try: ... except bluetooth.btcommon.BluetoothError: handler]. *)
Definition except_bluetooth {A : Type} (m : outcome A) (handler : A) : outcome A :=
  match m with
  | Raise (BluetoothError _) => Return handler
  | other => other
  end.

(** ** Bytes and [struct] *)

Definition bytes : Type := list byte.

(** The integer obtained by indexing or iterating a bytes object. *)
Definition byte_val (b : byte) : Z := Z.of_N (Byte.to_N b).

(** The byte whose value is [z mod 256]. *)
Definition byte_of_Z (z : Z) : byte :=
  match Byte.of_N (Z.to_N (z mod 256)) with
  | Some b => b
  | None => x00
  end.

(** [len(b)] *)
Definition len {A : Type} (l : list A) : Z := Z.of_nat (List.length l).

(** [range(start, stop, step)] for a positive [step]. *)
Definition py_range (start stop step : Z) : list Z :=
  map (fun k => start + step * Z.of_nat k)
      (seq 0 (Z.to_nat ((stop - start + step - 1) / step))).

(** [b[start:stop]] on a sequence, with Python's treatment of negative and
    out-of-range bounds. *)
Definition slice_bound {A : Type} (l : list A) (i : Z) : Z :=
  if i <? 0 then Z.max (len l + i) 0 else Z.min i (len l).

Definition py_slice {A : Type} (l : list A) (start stop : Z) : list A :=
  let a := slice_bound l start in
  let b := slice_bound l stop in
  firstn (Z.to_nat (b - a)) (skipn (Z.to_nat a) l).

(** [[x] * n] : the empty list when [n <= 0]. *)
Definition py_repeat {A : Type} (x : A) (n : Z) : list A := repeat x (Z.to_nat n).

(** The signed value of two bytes read as format ['<h']. *)
Definition unpack_h (b0 b1 : byte) : Z :=
  let u := byte_val b0 + 256 * byte_val b1 in
  if u <? 32768 then u else u - 65536.

(** The unsigned value of two bytes read as format ['H'] (little-endian host). *)
Definition unpack_H (b0 b1 : byte) : Z := byte_val b0 + 256 * byte_val b1.

(** [struct.pack('<h', v)]: raises [struct.error] outside the int16 range. *)
Definition pack_h (v : Z) : outcome bytes :=
  if (-32768 <=? v) && (v <=? 32767)
  then let u := v mod 65536 in Return [byte_of_Z (u mod 256); byte_of_Z (u / 256)]
  else Raise StructError.

(** [struct.pack('<hh', v1, v2)] *)
Definition pack_hh (v1 v2 : Z) : outcome bytes :=
  a <- pack_h v1 ;; b <- pack_h v2 ;; Return (a ++ b).

(** [struct.pack('b', v)]: raises [struct.error] outside [-128..127]. *)
Definition pack_b (v : Z) : outcome bytes :=
  if (-128 <=? v) && (v <=? 127)
  then Return [byte_of_Z (v mod 256)]
  else Raise StructError.

(** [struct.unpack_from('<hh', data, i)]: raises [struct.error] when fewer
    than four bytes remain at offset [i]. *)
Definition unpack_from_hh (data : bytes) (i : Z) : outcome (Z * Z) :=
  match skipn (Z.to_nat i) data with
  | b0 :: b1 :: b2 :: b3 :: _ => Return (unpack_h b0 b1, unpack_h b2 b3)
  | _ => Raise StructError
  end.

(** ** Python numbers *)

(** [int(x)] on a float: truncation towards zero. *)
Definition py_int (x : Q) : Z := Z.quot (Qnum x) (Zpos (Qden x)).

(** [round(x)] on a float: nearest integer, ties to the even one. *)
Definition py_round (x : Q) : Z :=
  let d := Zpos (Qden x) in
  let fl := Qnum x / d in
  match 2 * (Qnum x mod d) ?= d with
  | Lt => fl
  | Gt => fl + 1
  | Eq => if Z.even fl then fl else fl + 1
  end.

(** [a / b] on two ints (true division by a nonzero constant). *)
Definition truediv (a b : Z) : Q := (inject_Z a / inject_Z b)%Q.

(** [a % b] on ints: the result takes the sign of the divisor; raises on a
    zero divisor. *)
Definition py_mod (a b : Z) : outcome Z :=
  if b =? 0 then Raise ZeroDivisionError else Return (a mod b).

(** ** Python floats *)

(** A float is an IEEE 754 binary64 value.  A finite one is kept by the
    rational it denotes; the sign of a zero is not kept. *)
Inductive float : Type :=
| Fin (q : Q)
| Inf (negative : bool)
| NaN.

(** A number handed to the code: an [int] or a [float]. *)
Inductive num : Type :=
| Int (z : Z)
| Flt (f : float).

(** [2 ** e] *)
Definition pow2 (e : Z) : Q := (2 ^ e)%Q.

(** The binade of the positive rational [n / d]: the [k] with
    [2 ** k <= n / d < 2 ** (k + 1)]. *)
Definition ilog2 (n d : positive) : Z :=
  let k := Z.log2 (Zpos n) - Z.log2 (Zpos d) in
  if Qle_bool (pow2 k) (Zpos n # d) then k else k - 1.

(** Round to nearest, ties to even, of the magnitude [n / d] onto the 53 bit
    grid of its binade (the subnormal grid [2 ** -1074] below the normal
    range); a result of [2 ** 1024] or more is an infinity. *)
Definition round_double (negative : bool) (n d : positive) : float :=
  let e := Z.max (-1074) (ilog2 n d - 52) in
  let m := py_round ((Zpos n # d) / pow2 e) in
  let y := (inject_Z m * pow2 e)%Q in
  if Qle_bool (pow2 1024) y then Inf negative
  else Fin (if negative then - y else y).

(** The double nearest to the rational [x]: the result of a float operation
    whose exact result is [x]. *)
Definition to_double (x : Q) : float :=
  match Qnum x with
  | 0 => Fin 0
  | Zpos n => round_double false n (Qden x)
  | Zneg n => round_double true n (Qden x)
  end.

(** [float(z)], also the conversion of an int operand next to a float one:
    [OverflowError] when the int is too large. *)
Definition float_of_int (z : Z) : outcome float :=
  match to_double (inject_Z z) with
  | Inf _ => Raise OverflowError
  | f => Return f
  end.

Definition to_float (x : num) : outcome float :=
  match x with
  | Int z => float_of_int z
  | Flt f => Return f
  end.

(** [a * b] on floats *)
Definition fmul (a b : float) : float :=
  match a, b with
  | NaN, _ | _, NaN => NaN
  | Fin x, Fin y => to_double (x * y)
  | Inf s, Inf s' => Inf (xorb s s')
  | Inf s, Fin y | Fin y, Inf s =>
      if Qeq_bool y 0 then NaN else Inf (xorb s (Qnum y <? 0))
  end.

(** [a / b] on floats: raises on a zero divisor. *)
Definition fdiv (a b : float) : outcome float :=
  match b with
  | Fin y =>
      if Qeq_bool y 0 then Raise ZeroDivisionError
      else Return (match a with
                   | Fin x => to_double (x / y)
                   | Inf s => Inf (xorb s (Qnum y <? 0))
                   | NaN => NaN
                   end)
  | Inf _ => Return (match a with Fin _ => Fin 0 | _ => NaN end)
  | NaN => Return NaN
  end.

(** [a * b] on numbers *)
Definition py_mul (a b : num) : outcome num :=
  match a, b with
  | Int x, Int y => Return (Int (x * y))
  | _, _ => fa <- to_float a ;; fb <- to_float b ;; Return (Flt (fmul fa fb))
  end.

(** [a / b] on numbers: two ints divide to the nearest double. *)
Definition py_truediv (a b : num) : outcome float :=
  match a, b with
  | Int x, Int y =>
      if y =? 0 then Raise ZeroDivisionError
      else match to_double (inject_Z x / inject_Z y) with
           | Inf _ => Raise OverflowError
           | f => Return f
           end
  | _, _ => fa <- to_float a ;; fb <- to_float b ;; fdiv fa fb
  end.

(** [int(x)] on a float *)
Definition int_of_float (f : float) : outcome Z :=
  match f with
  | Fin q => Return (py_int q)
  | Inf _ => Raise OverflowError
  | NaN => Raise ValueError
  end.

(** [math.pi] *)
Definition math_pi : Q := 884279719003555 # 281474976710656.

(** ** Sample-format conversion *)

Definition AUDIO_8KHZ_SIGNED_8BIT_MONO : Z := 0.
Definition AUDIO_16KHZ_SIGNED_16BIT_LE_MONO : Z := 1.

(** The conversion loop of [read]: 8 kHz signed 8 bit to 16 kHz signed
    16 bit little-endian. *)
Definition upsample (data_8s8m : bytes) : outcome bytes :=
  for_each (fun snd b =>
              let v := byte_val b in
              let v := if v >? 127 then v - 256 else v in
              let v := v * 256 in
              p <- pack_hh v v ;; Return (snd ++ p))
           data_8s8m [].

(** The conversion loop of [write]: 16 kHz signed 16 bit little-endian to
    8 kHz signed 8 bit. *)
Definition downsample (data : bytes) : outcome bytes :=
  for_each (fun data_8s8m i =>
              ' (val1, val2) <- unpack_from_hh data i ;;
              let val := py_round (truediv (val1 + val2) 512) in
              p <- pack_b val ;; Return (data_8s8m ++ p))
           (py_range 0 (len data) 4) [].

(** ** The object and the host-stack interface *)

Definition SCO_HEADERS_SIZE : Z := 16.
Definition HFP_TIMEOUT : Q := 1.
Definition HFP_CONNECT_AUDIO_TIMEOUT : Q := 10.

(** The two kinds of [bluetooth.BluetoothSocket] the module opens. *)
Inductive socket : Type :=
| RFCOMM_socket
| SCO_socket.

(** The worker thread object held in [self.pt]. *)
Inductive thread : Type := Worker.

(** The attributes of a [BluetoothAudio] object.  [None] in [channel] also
    stands for the attribute before its first assignment; [sco_payload] is
    only read while [audio] is set, and both are assigned together. *)
Record BluetoothAudio : Type := mkBluetoothAudio {
  audio : option socket;
  hfp : option socket;
  channel : option Z;
  sco_payload : Z;
  pt : option thread
}.

Definition set_audio (self : BluetoothAudio) (a : option socket) (payload : Z) :=
  mkBluetoothAudio a (hfp self) (channel self) payload (pt self).
Definition set_hfp (self : BluetoothAudio) (h : option socket) :=
  mkBluetoothAudio (audio self) h (channel self) (sco_payload self) (pt self).
Definition set_channel (self : BluetoothAudio) (c : option Z) :=
  mkBluetoothAudio (audio self) (hfp self) c (sco_payload self) (pt self).
Definition set_pt (self : BluetoothAudio) (t : option thread) :=
  mkBluetoothAudio (audio self) (hfp self) (channel self) (sco_payload self) t.

(** The object right after [__init__]. *)
Definition init : BluetoothAudio := mkBluetoothAudio None None None 0 (Some Worker).

(** What the code asks of the outside world, in program order. *)
Inductive event : Type :=
| FindService
| Sleep (seconds : Q)
| ConnectService (channel : Z)
| ConnectAudio
| CloseService
| CloseAudio
| SendService (data : bytes)
| SendAudio (frame : bytes)
| Warning (msg : string).

(** A computation that leaves a trace of events and returns or raises. *)
Definition act (A : Type) : Type := list event * outcome A.

Definition ret {A : Type} (a : A) : act A := ([], Return a).
Definition throw {A : Type} (e : exn) : act A := ([], Raise e).
Definition emit (ev : event) : act unit := ([ev], Return tt).

Definition bind_act {A B : Type} (m : act A) (k : A -> act B) : act B :=
  match m with
  | (tr, Return a) => let (tr', r) := k a in (tr ++ tr', r)
  | (tr, Raise e) => (tr, Raise e)
  end.

Declare Scope act_scope.
Delimit Scope act_scope with act.
Notation "x <~ m ;; k" := (bind_act m (fun x => k))
  (at level 61, m at next level, right associativity) : act_scope.
Notation "m ;;; k" := (bind_act m (fun _ => k))
  (at level 61, right associativity) : act_scope.
Local Open Scope act_scope.

(** Python truthiness of an optional int: [None] and [0] are false. *)
Definition truthy (c : option Z) : bool :=
  match c with
  | Some z => negb (z =? 0)
  | None => false
  end.

(** ** Public API: [is_connected], [close], [read], [write] *)

Definition is_connected (self : BluetoothAudio) : bool :=
  match audio self with
  | Some _ => true
  | None => false
  end.

Definition cleanup (self : BluetoothAudio) : act BluetoothAudio :=
  (match audio self with Some _ => emit CloseAudio | None => ret tt end) ;;;
  (match hfp self with Some _ => emit CloseService | None => ret tt end) ;;;
  ret (set_audio (set_hfp self None) None (sco_payload self)).

(** [close]: [t = self.pt; self.pt = None; t.join(); self._cleanup()]. *)
Definition close (self : BluetoothAudio) : act BluetoothAudio :=
  match pt self with
  | None => throw AttributeError
  | Some _ => cleanup (set_pt self None)
  end.

(** [read]: [rx] is the result of [self.audio.recv(self.sco_payload)]. *)
Definition read (self : BluetoothAudio) (format : Z) (rx : outcome bytes)
  : outcome (option bytes) :=
  match audio self with
  | None => Return None
  | Some _ =>
      except_bluetooth
        (data_8s8m <- rx ;;
         if format =? AUDIO_8KHZ_SIGNED_8BIT_MONO then Return (Some data_8s8m)
         else snd <- upsample data_8s8m ;; Return (Some snd))
        None
  end.

(** The framing loop of [write].  [tx] lists the results of the successive
    [self.audio.send(ts)] calls; the loop is still running ([None]) when the
    list is used up before [sent] reaches [len(data_8s8m)]. *)
Fixpoint send_frames (payload : Z) (data_8s8m : bytes) (sent : Z)
         (tx : list (outcome Z)) : list event * option (outcome unit) :=
  if sent <? len data_8s8m then
    match tx with
    | [] => ([], None)
    | r :: tx' =>
        let ts := py_slice data_8s8m sent (sent + payload) in
        let ts := if len ts <? payload
                  then ts ++ py_repeat x00 (payload - len ts) else ts in
        match r with
        | Return n =>
            let (tr, res) := send_frames payload data_8s8m (sent + n) tx' in
            (SendAudio ts :: tr, res)
        | Raise e => ([], Some (Raise e))
        end
    end
  else ([], Some (Return tt)).

Definition write (self : BluetoothAudio) (data : bytes) (format : Z)
           (tx : list (outcome Z)) : list event * option (outcome bool) :=
  match audio self with
  | None => ([], Some (Return false))
  | Some _ =>
      match (if format =? AUDIO_8KHZ_SIGNED_8BIT_MONO then Return data
             else downsample data) with
      | Raise e => ([], Some (except_bluetooth (Raise e) false))
      | Return data_8s8m =>
          let (tr, res) := send_frames (sco_payload self) data_8s8m 0 tx in
          (tr, option_map
                 (fun r => except_bluetooth (_ <- r ;; Return true) false) res)
      end
  end.

(** ** Tone generator: [beep] *)

Section Tone.

(** [math.sin] on a finite argument, as the C library computes it. *)
Variable math_sin : Q -> Q.

(** [math.sin(x)] *)
Definition py_sin (x : float) : outcome float :=
  match x with
  | Fin q => Return (Fin (math_sin q))
  | Inf _ => Raise ValueError
  | NaN => Return NaN
  end.

(** [period = int(8000 / frequency)] *)
Definition beep_period (frequency : num) : outcome Z :=
  q <- py_truediv (Int 8000) frequency ;; int_of_float q.

(** [length = int(8000 * length_ms / 1000)] *)
Definition beep_length (length_ms : num) : outcome Z :=
  p <- py_mul (Int 8000) length_ms ;;
  q <- py_truediv p (Int 1000) ;;
  int_of_float q.

(** [val = 32767.0 * amplitude * math.sin(2.0 * math.pi * float(i % period) / period)],
    the operands evaluated from left to right: the product with the amplitude
    comes before [i % period]. *)
Definition beep_val (amplitude : num) (i period : Z) : outcome float :=
  a <- to_float amplitude ;;
  let scale := fmul (Fin 32767) a in
  let turn := fmul (Fin 2) (Fin math_pi) in
  m <- py_mod i period ;;
  fm <- float_of_int m ;;
  fp <- float_of_int period ;;
  x <- fdiv (fmul turn fm) fp ;;
  s <- py_sin x ;;
  Return (fmul scale s).

(** The samples computed by [beep] before they are handed to [write]. *)
Definition beep_samples (length_ms frequency amplitude : num) : outcome bytes :=
  period <- beep_period frequency ;;
  length <- beep_length length_ms ;;
  for_each (fun snd i =>
              val <- beep_val amplitude i period ;;
              v <- int_of_float val ;;
              p <- pack_h v ;; Return (snd ++ p))
           (py_range 0 length 1) [].


End Tone.

(** ** Channel resolver: [_find_channel] *)

(** One record of [bluetooth.find_service]: the keys the code reads. *)
Record service : Type := mkService {
  service_classes : list string;
  port : Z
}.

(** The PyBluez class identifiers the code compares against. *)
Definition HANDSFREE_CLASS : string := "111E".
Definition HEADSET_CLASS : string := "1108".
Definition GENERIC_AUDIO_CLASS : string := "1203".

(** [str.lower] on ASCII text. *)
Definition lower_ascii (c : ascii) : ascii :=
  let n := nat_of_ascii c in
  if (65 <=? n)%nat && (n <=? 90)%nat then ascii_of_nat (n + 32) else c.

Fixpoint lower (s : string) : string :=
  match s with
  | EmptyString => EmptyString
  | String c s' => String (lower_ascii c) (lower s')
  end.

(** The state of the scan: either the function has returned with a Handsfree
    channel, or it is still looping with its two local variables. *)
Inductive scan : Type :=
| Found (channel : Z)
| Scanning (hsp_channel generic_channel : option Z).

(** The inner loop [for c in svc["service-classes"]]. *)
Fixpoint scan_classes (classes : list string) (svc_port : Z)
         (hsp_channel generic_channel : option Z) : scan :=
  match classes with
  | [] => Scanning hsp_channel generic_channel
  | c :: rest =>
      let service_class := lower c in
      if String.eqb (lower HANDSFREE_CLASS) service_class then Found svc_port
      else if String.eqb (lower HEADSET_CLASS) service_class
           then scan_classes rest svc_port (Some svc_port) generic_channel
      else if String.eqb (lower GENERIC_AUDIO_CLASS) service_class
           then scan_classes rest svc_port hsp_channel (Some svc_port)
      else scan_classes rest svc_port hsp_channel generic_channel
  end.

(** The outer loop [for svc in services]. *)
Fixpoint scan_services (services : list service)
         (hsp_channel generic_channel : option Z) : scan :=
  match services with
  | [] => Scanning hsp_channel generic_channel
  | svc :: rest =>
      match scan_classes (service_classes svc) (port svc)
                         hsp_channel generic_channel with
      | Found ch => Found ch
      | Scanning hsp gen => scan_services rest hsp gen
      end
  end.

(** The value [_find_channel] leaves in [self.channel]. *)
Definition resolve_channel (services : list service) : option Z :=
  match scan_services services None None with
  | Found ch => Some ch
  | Scanning hsp_channel generic_channel =>
      if truthy hsp_channel then hsp_channel else generic_channel
  end.

Definition find_channel (self : BluetoothAudio) (services : list service)
  : act BluetoothAudio :=
  emit FindService ;;; ret (set_channel self (resolve_channel services)).

(** ** Control link: [_connect_service_level], [_connect_audio], AT loop *)

Definition b (s : string) : bytes := list_byte_of_string s.

Definition CRLF : bytes := [x0d; x0a].
Definition CR : bytes := [x0d].

Definition AT_BRSF : bytes := b "AT+BRSF=".
Definition AT_CIND_TEST : bytes := b "AT+CIND=?" ++ CR.
Definition AT_CIND_READ : bytes := b "AT+CIND?" ++ CR.
Definition AT_CMER : bytes := b "AT+CMER=".
Definition AT_CHLD_TEST : bytes := b "AT+CHLD=?" ++ CR.

Definition RESP_BRSF : bytes := b "+BRSF: 0".
Definition RESP_CIND_TEST : bytes :=
  b "+CIND: (" ++ [x22] ++ b "service" ++ [x22] ++ b ",(0,1)),("
    ++ [x22] ++ b "call" ++ [x22] ++ b ",(0,1))".
Definition RESP_CIND_READ : bytes := b "+CIND: 1,0".
Definition RESP_CHLD : bytes := b "+CHLD: 0".

(** [a == b] on bytes. *)
Fixpoint bytes_eqb (x y : bytes) : bool :=
  match x, y with
  | [], [] => true
  | c :: x', d :: y' => Byte.eqb c d && bytes_eqb x' y'
  | _, _ => false
  end.

Fixpoint starts_with (needle hay : bytes) : bool :=
  match needle, hay with
  | [], _ => true
  | c :: n', d :: h' => Byte.eqb c d && starts_with n' h'
  | _ :: _, [] => false
  end.

(** [needle in hay] on bytes: [needle] occurs as a contiguous run. *)
Fixpoint bytes_in (needle hay : bytes) : bool :=
  starts_with needle hay ||
  match hay with
  | [] => false
  | _ :: h' => bytes_in needle h'
  end.

(** Strict UTF-8 well-formedness, as checked by [bytes.decode('utf8')]:
    [need] continuation bytes are still expected and the next one must lie in
    [lo..hi]. *)
Fixpoint utf8_ok (need : nat) (lo hi : Z) (d : bytes) : bool :=
  match d with
  | [] => match need with O => true | S _ => false end
  | c :: d' =>
      let v := byte_val c in
      match need with
      | O =>
          if v <=? 127 then utf8_ok 0 128 191 d'
          else if (194 <=? v) && (v <=? 223) then utf8_ok 1 128 191 d'
          else if v =? 224 then utf8_ok 2 160 191 d'
          else if v =? 237 then utf8_ok 2 128 159 d'
          else if (225 <=? v) && (v <=? 239) then utf8_ok 2 128 191 d'
          else if v =? 240 then utf8_ok 3 144 191 d'
          else if (241 <=? v) && (v <=? 243) then utf8_ok 3 128 191 d'
          else if v =? 244 then utf8_ok 3 128 143 d'
          else false
      | S n =>
          if (lo <=? v) && (v <=? hi) then utf8_ok n 128 191 d' else false
      end
  end.

Definition decode_utf8 (d : bytes) : outcome unit :=
  if utf8_ok 0 128 191 d then Return tt else Raise UnicodeDecodeError.

(** What the host stack does during one [_connect_audio], call by call. *)
Record sco : Type := mkSco {
  sco_open : outcome unit;         (* BluetoothSocket(SCO), then setsockopt *)
  sco_connect : outcome unit;      (* audio.connect((self.addr,)) *)
  sco_getsockopt : outcome bytes   (* audio.getsockopt(SOL_SCO, SCO_OPTIONS, 2) *)
}.

(** What the outside world does during one turn of the AT loop. *)
Record tick : Type := mkTick {
  rx : outcome bytes;             (* self.hfp.recv(1024) *)
  tx_ok : bytes -> bool;          (* does self.hfp.send(data) succeed? *)
  now : Q;                        (* time.time() *)
  sco_cmer : sco;                 (* the audio connect made by AT+CMER *)
  sco_grace : sco                 (* the audio connect made after the grace period *)
}.

(** [_read_at]: a timeout is not an error; the debug log decodes the chunk. *)
Definition read_at (r : outcome bytes) : outcome (option bytes) :=
  match r with
  | Return d => _ <- decode_utf8 d ;; Return (Some d)
  | Raise (BluetoothError msg) =>
      if String.eqb msg "timed out" then Return None
      else Raise (BluetoothError msg)
  | Raise e => Raise e
  end.

Definition send (t : tick) (data : bytes) : act unit :=
  if tx_ok t data then emit (SendService data)
  else throw (BluetoothError "send failed").

Definition send_at (t : tick) (data : bytes) : act unit :=
  send t (CRLF ++ data ++ CRLF).

Definition send_ok (t : tick) : act unit := send_at t (b "OK").

Definition send_error (t : tick) : act unit := send_at t (b "ERROR").

(** [struct.unpack('H', opt)]: raises [struct.error] unless [opt] has
    exactly two bytes. *)
Definition unpack_H_from (opt : bytes) : outcome Z :=
  match opt with
  | [o0; o1] => Return (unpack_H o0 o1)
  | _ => Raise StructError
  end.

(** [_connect_audio].  Opening the socket and setting the voice option come
    before the [try], so whatever they raise escapes; only a
    [BluetoothError] of [connect] is caught (the socket is closed and the
    object left alone); reading the options back and unpacking them come
    after the [try], and only then are [self.audio] and [self.sco_payload]
    assigned.  [ConnectAudio] marks the attempt. *)
Definition connect_audio (self : BluetoothAudio) (s : sco) : act BluetoothAudio :=
  emit ConnectAudio ;;;
  _ <~ ([], sco_open s) ;;
  match sco_connect s with
  | Raise (BluetoothError _) => emit CloseAudio ;;; ret self
  | Raise e => throw e
  | Return _ =>
      opt <~ ([], sco_getsockopt s) ;;
      mtu <~ ([], unpack_H_from opt) ;;
      ret (set_audio self (Some SCO_socket) (mtu - SCO_HEADERS_SIZE))
  end.

(** [_connect_service_level]: [ok] tells whether [hfp.connect] succeeded. *)
Definition connect_service_level (self : BluetoothAudio) (ok : bool)
  : act BluetoothAudio :=
  match channel self with
  | None => ret self
  | Some ch =>
      emit (ConnectService ch) ;;;
      if ok then ret (set_hfp self (Some RFCOMM_socket))
      else emit CloseService ;;;
           emit (Warning "Failed to establish service level connection") ;;;
           ret self
  end.

(** The [if data:] block of [_parse_channel]: the dispatch chain. *)
Definition dispatch (self : BluetoothAudio) (sevice_notice : bool) (t : tick)
           (data : bytes) : act (BluetoothAudio * bool) :=
  if bytes_in AT_BRSF data then
    send_at t RESP_BRSF ;;; send_ok t ;;; ret (self, sevice_notice)
  else if bytes_eqb AT_CIND_TEST data then
    send_at t RESP_CIND_TEST ;;; send_ok t ;;; ret (self, sevice_notice)
  else if bytes_eqb AT_CIND_READ data then
    send_at t RESP_CIND_READ ;;; send_ok t ;;; ret (self, sevice_notice)
  else if bytes_in AT_CMER data then
    send_ok t ;;;
    self' <~ connect_audio self (sco_cmer t) ;;
    ret (self', false)
  else if bytes_eqb AT_CHLD_TEST data then
    send_at t RESP_CHLD ;;; send_ok t ;;; ret (self, sevice_notice)
  else
    send_error t ;;; ret (self, sevice_notice).

(** The [if not self.audio:] block: the grace-period fallback. *)
Definition grace (self : BluetoothAudio) (sevice_notice : bool) (audio_time : Q)
           (t : tick) : act (BluetoothAudio * bool) :=
  match audio self with
  | Some _ => ret (self, sevice_notice)
  | None =>
      if Qlt_le_dec audio_time (now t) then
        (if sevice_notice
         then emit (Warning "Service connection timed out, try audio anyway...")
         else ret tt) ;;;
        self' <~ connect_audio self (sco_grace t) ;;
        ret (self', false)
      else ret (self, sevice_notice)
  end.

(** One turn of the [while self.pt:] loop of [_parse_channel]. *)
Definition parse_step (audio_time : Q) (st : BluetoothAudio * bool) (t : tick)
  : act (BluetoothAudio * bool) :=
  let (self, sevice_notice) := st in
  data <~ ([], read_at (rx t)) ;;
  st' <~ match data with
         | Some (c :: d) => dispatch self sevice_notice t (c :: d)
         | _ => ret (self, sevice_notice)
         end ;;
  grace (fst st') (snd st') audio_time t.

(** The turns of the loop, one per [tick]; the list ends when [close] has
    cleared [self.pt].  A turn that raises has assigned no attribute before
    it does (every send precedes the audio connect), so the object is then
    the one the turn started with. *)
Fixpoint parse_loop (audio_time : Q) (st : BluetoothAudio * bool)
         (ticks : list tick)
  : list event * (BluetoothAudio * bool) * outcome unit :=
  match ticks with
  | [] => ([], st, Return tt)
  | t :: rest =>
      match parse_step audio_time st t with
      | (tr, Return st') =>
          let '(tr', st'', r) := parse_loop audio_time st' rest in
          (tr ++ tr', st'', r)
      | (tr, Raise e) => (tr, st, Raise e)
      end
  end.

(** [_parse_channel], entered at time [start]. *)
Definition parse_channel (self : BluetoothAudio) (start : Q) (ticks : list tick)
  : list event * BluetoothAudio * outcome unit :=
  let audio_time := (start + HFP_CONNECT_AUDIO_TIMEOUT)%Q in
  let '(tr, st, r) := parse_loop audio_time (self, true) ticks in
  (tr, fst st, r).

(** ** Supervisor: [_worker_loop] *)

(** What the outside world does during one turn of the supervisor loop. *)
Record cycle : Type := mkCycle {
  found : list service;     (* bluetooth.find_service(...) *)
  service_ok : bool;        (* does hfp.connect succeed? *)
  started : Q;              (* time.time() on entry to _parse_channel *)
  turns : list tick         (* the turns of the AT loop *)
}.

(** One turn of [while self.pt:] in [_worker_loop]. *)
Definition worker_iteration (self : BluetoothAudio) (c : cycle)
  : act BluetoothAudio :=
  self <~ find_channel self (found c) ;;
  if negb (truthy (channel self)) then
    emit (Sleep HFP_TIMEOUT) ;;; ret self
  else
    self <~ connect_service_level self (service_ok c) ;;
    match hfp self with
    | None => emit (Sleep HFP_TIMEOUT) ;;; ret self
    | Some _ =>
        let '(tr, self', r) := parse_channel self (started c) (turns c) in
        (tr, Return tt) ;;;
        match r with
        | Return _ => cleanup self'
        | Raise (BluetoothError _) =>
            emit (Warning "Service level connection disconnected") ;;;
            emit (Sleep HFP_TIMEOUT) ;;;
            cleanup self'
        | Raise e => throw e
        end
    end.

(** The supervisor loop, one [cycle] per turn. *)
Fixpoint worker_loop (self : BluetoothAudio) (cycles : list cycle)
  : act BluetoothAudio :=
  match cycles with
  | [] => ret self
  | c :: rest =>
      self' <~ worker_iteration self c ;;
      worker_loop self' rest
  end.

(** ** Reading traces *)

Definition is_connect_audio (ev : event) : bool :=
  match ev with ConnectAudio => true | _ => false end.

Definition is_connect_service (ev : event) : bool :=
  match ev with ConnectService _ => true | _ => false end.

Definition is_warning (ev : event) : bool :=
  match ev with Warning _ => true | _ => false end.

(** The bytes written to the control socket, in order. *)
Fixpoint sent_bytes (tr : list event) : bytes :=
  match tr with
  | [] => []
  | SendService d :: tr' => d ++ sent_bytes tr'
  | _ :: tr' => sent_bytes tr'
  end.

Definition count (p : event -> bool) (tr : list event) : nat :=
  List.length (filter p tr).

(** ** Words used by the statements *)

(** The signed value of a byte read as format ['b'] (two's complement). *)
Definition int8 (x : byte) : Z := (byte_val x + 128) mod 256 - 128.

(** A 4-byte group of extended-format input and the sum of its two samples. *)
Definition group : Type := (byte * byte * byte * byte)%type.

Definition group_bytes (g : group) : bytes :=
  let '(b0, b1, b2, b3) := g in [b0; b1; b2; b3].

Definition group_sum (g : group) : Z :=
  let '(b0, b1, b2, b3) := g in unpack_h b0 b1 + unpack_h b2 b3.

(** The signed 16-bit little-endian samples a buffer holds. *)
Fixpoint samples_of (snd : bytes) : list Z :=
  match snd with
  | b0 :: b1 :: rest => unpack_h b0 b1 :: samples_of rest
  | _ => []
  end.

(** Does the record advertise class [cls] (compared in lower case)? *)
Definition has_class (cls : string) (svc : service) : bool :=
  existsb (fun c => String.eqb (lower cls) (lower c)) (service_classes svc).

(** The port of the last record advertising [cls], starting from [acc]. *)
Definition last_port_from (acc : option Z) (cls : string) (services : list service)
  : option Z :=
  fold_left (fun a svc => if has_class cls svc then Some (port svc) else a)
            services acc.

Definition last_port (cls : string) (services : list service) : option Z :=
  last_port_from None cls services.

(** The priority rule of the channel resolver, written as a specification:
    the first Handsfree record wins; failing that the last Headset record
    when its port is nonzero; failing that the last GenericAudio record. *)
Definition resolve_by_priority (services : list service) : option Z :=
  match find (has_class HANDSFREE_CLASS) services with
  | Some svc => Some (port svc)
  | None =>
      if truthy (last_port HEADSET_CLASS services)
      then last_port HEADSET_CLASS services
      else last_port GENERIC_AUDIO_CLASS services
  end.

(** The two bytes of an int16 in little-endian order. *)
Definition le16 (v : Z) : bytes :=
  let u := v mod 65536 in [byte_of_Z (u mod 256); byte_of_Z (u / 256)].

(** A stand-in for [math.sin] with values in [-1, 1], and one for [math.pi]. *)
Definition sin_clamped (x : Q) : Q := Qmax (-1) (Qmin 1 (x - x * x * x / 6)).

(** The rational is a double already. *)
Definition is_double (q : Q) : bool :=
  match to_double q with
  | Fin y => Qeq_bool y q
  | _ => false
  end.




(** The value packed for sample [i] when [val] is finite. *)
Definition sample_at (math_sin : Q -> Q) (amplitude : num) (period i : Z) : Z :=
  match beep_val math_sin amplitude i period with
  | Return (Fin v) => py_int v
  | _ => 0
  end.

(** The four bytes [read] produces for one input byte. *)
Definition up4 (x : byte) : bytes := [x00; x; x00; x].

(** The body of the loop of [write], as a chunk computed from the index. *)
Definition down_chunk (data : bytes) (i : Z) : outcome bytes :=
  ' (val1, val2) <- unpack_from_hh data i ;;
  pack_b (py_round (truediv (val1 + val2) 512)).

(** The outbound frames of the dispatch table. *)
Definition frame (payload : bytes) : bytes := CRLF ++ payload ++ CRLF.

(** An audio connect that the peer refuses ([connect] raises
    [BluetoothError]), and one that succeeds with the given SCO_OPTIONS. *)
Definition refused : sco :=
  mkSco (Return tt) (Raise (BluetoothError "Connection refused")) (Return []).

Definition accepted (o0 o1 : byte) : sco :=
  mkSco (Return tt) (Return tt) (Return [o0; o1]).

(** The MTU an audio connect reads back, when it goes through. *)
Definition sco_mtu (s : sco) : option Z :=
  match sco_open s, sco_connect s, sco_getsockopt s with
  | Return _, Return _, Return [o0; o1] => Some (unpack_H o0 o1)
  | _, _, _ => None
  end.

(** An audio connect during which nothing escapes [_connect_audio]: it goes
    through, or [connect] raises [BluetoothError]. *)
Definition sco_quiet (s : sco) : Prop :=
  match sco_open s, sco_connect s with
  | Return _, Raise (BluetoothError _) => True
  | Return _, Return _ => sco_mtu s <> None
  | _, _ => False
  end.

(** An audio connect that fails inside the [try]. *)
Definition sco_refused (s : sco) : Prop :=
  exists msg, sco_open s = Return tt /\ sco_connect s = Raise (BluetoothError msg).

(** A turn in which [data] arrives, every frame is accepted and no audio
    connect succeeds; a turn in which the receive times out. *)
Definition tick_received (data : bytes) (time : Q) : tick :=
  mkTick (Return data) (fun _ => true) time refused refused.

Definition tick_timeout (time : Q) : tick :=
  mkTick (Raise (BluetoothError "timed out")) (fun _ => true) time refused refused.

(** The object while a control session is open and no audio session is. *)
Definition linked : BluetoothAudio :=
  mkBluetoothAudio None (Some RFCOMM_socket) (Some 1) 0 (Some Worker).

(** A turn after the grace period in which nothing arrives and the audio
    connect fails. *)
Definition stalled (audio_time : Q) (t : tick) : Prop :=
  rx t = Raise (BluetoothError "timed out")
  /\ (audio_time < now t)%Q
  /\ sco_refused (sco_grace t).

(** The events a control session can produce. *)
Definition link_event (ev : event) : Prop :=
  match ev with
  | SendService _ | ConnectAudio | CloseAudio | Warning _ => True
  | _ => False
  end.

(** The payload size is the MTU that an audio connect of one of the given
    turns read back, less the header size. *)
Definition payload_from_mtu (ticks : list tick) (self : BluetoothAudio) : Prop :=
  audio self = None
  \/ exists t mtu,
       In t ticks
       /\ (sco_mtu (sco_cmer t) = Some mtu \/ sco_mtu (sco_grace t) = Some mtu)
       /\ sco_payload self = mtu - SCO_HEADERS_SIZE.

(** How many warnings the loop may still emit. *)
Definition budget (sevice_notice : bool) : nat := if sevice_notice then 1 else 0.

(** A turn in which [AT+CMER] arrives and the audio connect succeeds with the
    given SCO_OPTIONS reply. *)
Definition tick_cmer (o0 o1 : byte) : tick :=
  mkTick (Return (b "AT+CMER=3,0,0,1" ++ CR)) (fun _ => true) 0
         (accepted o0 o1) refused.

(** ** The demo loop of [main] *)

(** One turn of the loopback in [main]:
    [d = hf.read(EXT); if d: hf.write(d, EXT)].  [rx] is the result of the
    audio receive and [tx] the results of the audio sends. *)
Definition loopback_turn (self : BluetoothAudio) (rx : outcome bytes)
           (tx : list (outcome Z)) : list event * option (outcome unit) :=
  match read self AUDIO_16KHZ_SIGNED_16BIT_LE_MONO rx with
  | Raise e => ([], Some (Raise e))
  | Return (Some (c :: d)) =>
      let (tr, res) := write self (c :: d) AUDIO_16KHZ_SIGNED_16BIT_LE_MONO tx in
      (tr, option_map (fun r => _ <- r ;; Return tt) res)
  | Return _ => ([], Some (Return tt))
  end.

(** ** More words used by the statements *)

(** The frames handed to the audio socket, in order. *)
Fixpoint audio_frames (tr : list event) : list bytes :=
  match tr with
  | [] => []
  | SendAudio f :: tr' => f :: audio_frames tr'
  | _ :: tr' => audio_frames tr'
  end.

Definition is_close_service (ev : event) : bool :=
  match ev with CloseService => true | _ => false end.

Definition is_close_audio (ev : event) : bool :=
  match ev with CloseAudio => true | _ => false end.

(** A transport result that is a return or a [BluetoothError]. *)
Definition transport_like {A : Type} (r : outcome A) : Prop :=
  match r with
  | Return _ => True
  | Raise (BluetoothError _) => True
  | Raise _ => False
  end.

(** A receive on the control socket that timed out. *)
Definition timed_out (t : tick) : Prop :=
  rx t = Raise (BluetoothError "timed out").

(** Does the record advertise one of the three classes the resolver knows? *)
Definition audio_class (svc : service) : bool :=
  has_class HANDSFREE_CLASS svc || has_class HEADSET_CLASS svc
  || has_class GENERIC_AUDIO_CLASS svc.

(** The record with its class identifiers in lower case. *)
Definition lower_service (svc : service) : service :=
  mkService (map lower (service_classes svc)) (port svc).

(** What a control session leaves alone: the control socket, the channel
    and the worker; and an audio session, once there, stays. *)
Definition kept (self self' : BluetoothAudio) : Prop :=
  hfp self' = hfp self /\ channel self' = channel self /\ pt self' = pt self
  /\ (audio self <> None -> audio self' <> None).

(** Two turns of the supervisor: a scan that finds nothing, then a session
    on channel 7 that gets audio and loses the control link. *)
Definition two_cycles : list cycle :=
  [mkCycle [] true 0 [];
   mkCycle [mkService [HANDSFREE_CLASS] 7] true 0
           [tick_cmer x40 x00;
            mkTick (Raise (BluetoothError "Connection reset by peer"))
                   (fun _ => true) 1 refused refused]].

(** Is the turn past the deadline of the grace period? *)
Definition past_deadline (audio_time : Q) (t : tick) : bool :=
  if Qlt_le_dec audio_time (now t) then true else false.

(** * Properties *)

(** ** The exception monad and the loops *)

Lemma for_each_app {A S : Type} (body : S -> A -> outcome S) (xs ys : list A) (acc : S) :
  for_each body (xs ++ ys) acc = (acc' <- for_each body xs acc ;; for_each body ys acc').
Proof.
  revert acc; induction xs as [|x xs IH]; intros acc; simpl; [reflexivity|].
  destruct (body acc x); simpl; auto.
Qed.

Lemma for_each_ext {A S : Type} (f g : S -> A -> outcome S) (xs : list A) (acc : S) :
  (forall s x, In x xs -> f s x = g s x) ->
  for_each f xs acc = for_each g xs acc.
Proof.
  revert acc; induction xs as [|x xs IH]; intros acc H; simpl; [reflexivity|].
  rewrite (H acc x) by (left; reflexivity).
  destruct (g acc x); simpl; [|reflexivity].
  apply IH; intros; apply H; right; assumption.
Qed.

Lemma for_each_map {A B S : Type} (h : A -> B) (body : S -> B -> outcome S)
      (xs : list A) (acc : S) :
  for_each body (map h xs) acc = for_each (fun s x => body s (h x)) xs acc.
Proof.
  revert acc; induction xs as [|x xs IH]; intros acc; simpl; [reflexivity|].
  destruct (body acc (h x)); simpl; auto.
Qed.

(** A loop whose body appends a chunk computed from the element alone. *)
Lemma for_each_append {A B : Type} (f : A -> outcome (list B)) (xs : list A) (acc : list B) :
  for_each (fun s x => p <- f x ;; Return (s ++ p)) xs acc =
  (r <- for_each (fun s x => p <- f x ;; Return (s ++ p)) xs [] ;; Return (acc ++ r)).
Proof.
  revert acc; induction xs as [|x xs IH]; intros acc; simpl.
  - rewrite app_nil_r; reflexivity.
  - destruct (f x) as [p|e]; simpl; [|reflexivity].
    rewrite IH, (IH p).
    destruct (for_each _ xs []); simpl; [|reflexivity].
    rewrite app_assoc; reflexivity.
Qed.

(** The same loop when no chunk computation raises. *)
Lemma for_each_append_total {A B : Type} (f : A -> outcome (list B))
      (g : A -> list B) (xs : list A) (acc : list B) :
  (forall x, In x xs -> f x = Return (g x)) ->
  for_each (fun s x => p <- f x ;; Return (s ++ p)) xs acc
  = Return (acc ++ flat_map g xs).
Proof.
  revert acc; induction xs as [|x xs IH]; intros acc H; simpl.
  - rewrite app_nil_r; reflexivity.
  - rewrite (H x) by (left; reflexivity). simpl.
    rewrite IH by (intros; apply H; right; assumption).
    rewrite app_assoc; reflexivity.
Qed.

(** ** Bytes *)

Lemma byte_val_range (x : byte) : 0 <= byte_val x <= 255.
Proof.
  unfold byte_val. pose proof (Byte.to_N_bounded x). lia.
Qed.

Lemma byte_val_of_Z (z : Z) : byte_val (byte_of_Z z) = z mod 256.
Proof.
  unfold byte_of_Z, byte_val.
  pose proof (Z.mod_pos_bound z 256 ltac:(lia)) as Hb.
  destruct (Byte.of_N (Z.to_N (z mod 256))) as [x|] eqn:E.
  - apply Byte.to_of_N in E. rewrite E. lia.
  - apply Byte.of_N_None_iff in E. lia.
Qed.

Lemma byte_of_Z_val (x : byte) : byte_of_Z (byte_val x) = x.
Proof.
  unfold byte_of_Z, byte_val.
  pose proof (Byte.to_N_bounded x).
  rewrite Z.mod_small by lia.
  rewrite N2Z.id, Byte.of_to_N. reflexivity.
Qed.

Lemma byte_val_inj (x y : byte) : byte_val x = byte_val y -> x = y.
Proof.
  intros H. rewrite <- (byte_of_Z_val x), <- (byte_of_Z_val y), H. reflexivity.
Qed.

Lemma int8_range (x : byte) : -128 <= int8 x <= 127.
Proof.
  unfold int8. pose proof (Z.mod_pos_bound (byte_val x + 128) 256 ltac:(lia)). lia.
Qed.

(** [int8] is the sign extension the code of [read] performs. *)
Lemma int8_sign_extend (x : byte) :
  int8 x = if byte_val x >? 127 then byte_val x - 256 else byte_val x.
Proof.
  unfold int8. pose proof (byte_val_range x).
  destruct (Z.gtb_spec (byte_val x) 127).
  - replace (byte_val x + 128) with (byte_val x - 128 + 1 * 256) by lia.
    rewrite Z.mod_add by lia. rewrite Z.mod_small by lia. lia.
  - rewrite Z.mod_small by lia. lia.
Qed.

Lemma int8_of_Z (v : Z) : -128 <= v <= 127 -> int8 (byte_of_Z (v mod 256)) = v.
Proof.
  intros Hv. unfold int8. rewrite byte_val_of_Z, Z.mod_mod by lia.
  rewrite Z.add_mod_idemp_l by lia.
  rewrite Z.mod_small by lia. lia.
Qed.

Lemma unpack_h_range (b0 b1 : byte) : -32768 <= unpack_h b0 b1 <= 32767.
Proof.
  unfold unpack_h.
  pose proof (byte_val_range b0); pose proof (byte_val_range b1).
  destruct (Z.ltb_spec (byte_val b0 + 256 * byte_val b1) 32768); lia.
Qed.

(** Packing an int16 and reading it back. *)
Lemma pack_h_unpack (v : Z) :
  -32768 <= v <= 32767 ->
  exists b0 b1, pack_h v = Return [b0; b1] /\ unpack_h b0 b1 = v.
Proof.
  intros Hv. unfold pack_h.
  replace ((-32768 <=? v) && (v <=? 32767)) with true
    by (symmetry; apply andb_true_iff; split; apply Z.leb_le; lia).
  eexists _, _; split; [reflexivity|].
  unfold unpack_h. rewrite !byte_val_of_Z.
  pose proof (Z.mod_pos_bound v 65536 ltac:(lia)) as Hu.
  set (u := v mod 65536) in *.
  rewrite Z.mod_mod by lia.
  rewrite (Z.mod_small (u / 256))
    by (split; [apply Z.div_pos|apply Z.div_lt_upper_bound]; lia).
  replace (u mod 256 + 256 * (u / 256)) with u
    by (pose proof (Z.div_mod u 256 ltac:(lia)); lia).
  subst u.
  destruct (Z.ltb_spec (v mod 65536) 32768) as [Hlt|Hge].
  - destruct (Z_lt_le_dec v 0).
    + replace v with (v + 65536 + (-1) * 65536) in Hlt by lia.
      rewrite Z.mod_add, Z.mod_small in Hlt by lia. lia.
    + apply Z.mod_small; lia.
  - destruct (Z_lt_le_dec v 0).
    + replace v with (v + 65536 + (-1) * 65536) at 1 by lia.
      rewrite Z.mod_add, Z.mod_small by lia. lia.
    + rewrite Z.mod_small in Hge by lia. lia.
Qed.

(** ** Upsample *)

Example upsample_ex :
  upsample [x01; xff; x80] =
  Return [x00; x01; x00; x01; x00; xff; x00; xff; x00; x80; x00; x80].
Proof. reflexivity. Qed.

Example downsample_ex :
  downsample [x00; x01; x00; x03; x00; xff; x00; xff] = Return [x02; xff].
Proof. reflexivity. Qed.

Example downsample_half_even :
  downsample [x00; x01; x00; x00; x00; x03; x00; x00] = Return [x00; x02].
Proof. reflexivity. Qed.


Lemma upsample_byte (x : byte) :
  pack_hh ((if byte_val x >? 127 then byte_val x - 256 else byte_val x) * 256)
          ((if byte_val x >? 127 then byte_val x - 256 else byte_val x) * 256)
  = Return (up4 x).
Proof. destruct x; reflexivity. Qed.

Lemma unpack_up4 (x : byte) : unpack_h x00 x = int8 x * 256.
Proof. destruct x; reflexivity. Qed.

Lemma upsample_flat_map (data : bytes) : upsample data = Return (flat_map up4 data).
Proof.
  unfold upsample. cbv zeta.
  apply (for_each_append_total _ up4 data []).
  intros x _. apply upsample_byte.
Qed.

Lemma length_flat_map_up4 (data : bytes) :
  List.length (flat_map up4 data) = (4 * List.length data)%nat.
Proof. induction data; simpl; lia. Qed.

Lemma skipn_flat_map_up4 (i : nat) (data : bytes) :
  skipn (4 * i) (flat_map up4 data) = flat_map up4 (skipn i data).
Proof.
  revert data; induction i as [|i IH]; intros data; [reflexivity|].
  destruct data as [|x data]; [reflexivity|].
  replace (4 * S i)%nat with (4 + 4 * i)%nat by lia.
  simpl flat_map. cbn [up4 app plus skipn]. apply IH.
Qed.

(** C8.  With an audio session and the extended format requested, [read]
    returns, for whatever bytes the audio socket delivered, a buffer four
    times as long in which the [i]-th 4-byte group is the little-endian
    16-bit pair [(v*256, v*256)], [v] being the [i]-th input byte
    sign-extended. *)
Theorem read_upsample (self : BluetoothAudio) (s : socket) (data : bytes) :
  audio self = Some s ->
  exists snd : bytes,
    read self AUDIO_16KHZ_SIGNED_16BIT_LE_MONO (Return data) = Return (Some snd)
    /\ len snd = 4 * len data
    /\ forall (i : nat) (x : byte),
         nth_error data i = Some x ->
         unpack_from_hh snd (4 * Z.of_nat i) = Return (int8 x * 256, int8 x * 256).
Proof.
  intros Ha. exists (flat_map up4 data).
  unfold read. rewrite Ha. cbn [bind].
  change (AUDIO_16KHZ_SIGNED_16BIT_LE_MONO =? AUDIO_8KHZ_SIGNED_8BIT_MONO) with false.
  cbv iota. rewrite upsample_flat_map. cbn [bind except_bluetooth].
  split; [reflexivity|]. split.
  - unfold len. rewrite length_flat_map_up4. lia.
  - intros i x Hx. unfold unpack_from_hh.
    replace (Z.to_nat (4 * Z.of_nat i)) with (4 * i)%nat by lia.
    rewrite skipn_flat_map_up4.
    destruct (nth_error_split _ _ Hx) as (l1 & l2 & -> & <-).
    rewrite skipn_app, skipn_all, Nat.sub_diag. cbn [skipn app flat_map up4].
    rewrite unpack_up4. reflexivity.
Qed.

Lemma read_upsample_witness :
  exists snd : bytes,
    read (set_audio init (Some SCO_socket) 48) AUDIO_16KHZ_SIGNED_16BIT_LE_MONO
         (Return [x01; xff; x80]) = Return (Some snd)
    /\ len snd = 4 * len [x01; xff; x80]
    /\ forall (i : nat) (x : byte),
         nth_error [x01; xff; x80] i = Some x ->
         unpack_from_hh snd (4 * Z.of_nat i) = Return (int8 x * 256, int8 x * 256).
Proof.
  apply (read_upsample (set_audio init (Some SCO_socket) 48) SCO_socket).
  reflexivity.
Defined.

(** ** Downsample *)

Lemma py_range_nil (n : Z) : n <= 0 -> py_range 0 n 4 = [].
Proof.
  intros Hn. unfold py_range.
  replace (Z.to_nat ((n - 0 + 4 - 1) / 4)) with 0%nat; [reflexivity|].
  assert ((n - 0 + 4 - 1) / 4 <= 0); [|lia].
  apply Z.lt_succ_r, Z.div_lt_upper_bound; lia.
Qed.

Lemma py_range_cons (n : Z) :
  0 < n -> py_range 0 n 4 = 0 :: map (Z.add 4) (py_range 0 (n - 4) 4).
Proof.
  intros Hn. unfold py_range.
  replace ((n - 0 + 4 - 1) / 4) with (1 + (n - 4 - 0 + 4 - 1) / 4)
    by (rewrite <- (Z.div_add_l 1 4) by lia; f_equal; lia).
  assert (0 <= (n - 4 - 0 + 4 - 1) / 4) by (apply Z.div_pos; lia).
  rewrite Z2Nat.inj_add by lia.
  change (Z.to_nat 1) with 1%nat. cbn [plus seq map].
  f_equal. rewrite <- seq_shift, !map_map.
  apply map_ext; intros k. lia.
Qed.

Lemma py_range_nonneg (n i : Z) : In i (py_range 0 n 4) -> 0 <= i.
Proof.
  unfold py_range. rewrite in_map_iff. intros (k & <- & _). lia.
Qed.

Lemma unpack_from_hh_shift (b0 b1 b2 b3 : byte) (rest : bytes) (i : Z) :
  0 <= i ->
  unpack_from_hh (b0 :: b1 :: b2 :: b3 :: rest) (4 + i) = unpack_from_hh rest i.
Proof.
  intros Hi. unfold unpack_from_hh.
  rewrite Z2Nat.inj_add by lia. reflexivity.
Qed.

Lemma downsample_chunks (data : bytes) (idx : list Z) (acc : bytes) :
  for_each (fun data_8s8m i =>
              ' (val1, val2) <- unpack_from_hh data i ;;
              let val := py_round (truediv (val1 + val2) 512) in
              p <- pack_b val ;; Return (data_8s8m ++ p)) idx acc
  = for_each (fun s i => p <- down_chunk data i ;; Return (s ++ p)) idx acc.
Proof.
  apply for_each_ext. intros s i _. unfold down_chunk.
  destruct (unpack_from_hh data i) as [[v1 v2]|e]; reflexivity.
Qed.

(** One full group in front: its byte is emitted, then the rest is converted. *)
Lemma downsample_group (b0 b1 b2 b3 : byte) (rest : bytes) :
  downsample (b0 :: b1 :: b2 :: b3 :: rest) =
  (p <- pack_b (py_round (truediv (unpack_h b0 b1 + unpack_h b2 b3) 512)) ;;
   r <- downsample rest ;; Return (p ++ r)).
Proof.
  unfold downsample. rewrite !downsample_chunks.
  rewrite py_range_cons by (unfold len; cbn [List.length]; lia).
  replace (len (b0 :: b1 :: b2 :: b3 :: rest) - 4) with (len rest)
    by (unfold len; cbn [List.length]; lia).
  cbn [for_each]. unfold down_chunk at 1.
  change (unpack_from_hh (b0 :: b1 :: b2 :: b3 :: rest) 0)
    with (Return (unpack_h b0 b1, unpack_h b2 b3)).
  cbn [bind].
  destruct (pack_b _) as [p|e]; cbn [bind app]; [|reflexivity].
  rewrite for_each_map. cbv beta.
  rewrite (for_each_append
             (fun i => down_chunk (b0 :: b1 :: b2 :: b3 :: rest) (4 + i))).
  rewrite (for_each_ext _ (fun s i => q <- down_chunk rest i ;; Return (s ++ q))).
  - reflexivity.
  - intros s i Hi. unfold down_chunk.
    rewrite unpack_from_hh_shift by (eapply py_range_nonneg; eassumption).
    reflexivity.
Qed.

(** A trailing partial group makes [struct.unpack_from] raise. *)
Lemma downsample_partial (data : bytes) :
  (0 < List.length data < 4)%nat -> downsample data = Raise StructError.
Proof.
  intros Hl. unfold downsample. rewrite downsample_chunks.
  rewrite py_range_cons by (unfold len; lia).
  destruct data as [|b0 [|b1 [|b2 [|b3 rest]]]]; simpl in Hl; try lia; reflexivity.
Qed.

Lemma downsample_nil : downsample [] = Return [].
Proof. reflexivity. Qed.

Lemma py_round_512 (n : Z) :
  py_round (truediv n 512) =
  match 2 * (n mod 512) ?= 512 with
  | Lt => n / 512
  | Gt => n / 512 + 1
  | Eq => if Z.even (n / 512) then n / 512 else n / 512 + 1
  end.
Proof.
  unfold py_round, truediv. cbn. rewrite Z.mul_1_r. reflexivity.
Qed.

Lemma py_round_512_bounds (n : Z) :
  -65536 <= n < 65280 -> -128 <= py_round (truediv n 512) <= 127.
Proof.
  intros Hn. rewrite py_round_512.
  pose proof (Z.div_mod n 512 ltac:(lia)) as E.
  pose proof (Z.mod_pos_bound n 512 ltac:(lia)) as B.
  destruct (Z.compare_spec (2 * (n mod 512)) 512); try lia.
  destruct (Z.even (n / 512)); lia.
Qed.

Lemma py_round_512_overflow (n : Z) :
  65280 <= n <= 65534 -> py_round (truediv n 512) = 128.
Proof.
  intros Hn. rewrite py_round_512.
  pose proof (Z.div_mod n 512 ltac:(lia)) as E.
  pose proof (Z.mod_pos_bound n 512 ltac:(lia)) as B.
  assert (n / 512 = 127) as Hq by lia.
  rewrite Hq in *.
  destruct (Z.compare_spec (2 * (n mod 512)) 512); try lia.
  reflexivity.
Qed.

Lemma group_sum_range (g : group) : -65536 <= group_sum g <= 65534.
Proof.
  destruct g as [[[b0 b1] b2] b3]. unfold group_sum.
  pose proof (unpack_h_range b0 b1); pose proof (unpack_h_range b2 b3). lia.
Qed.

Lemma pack_b_in_range (v : Z) :
  -128 <= v <= 127 -> pack_b v = Return [byte_of_Z (v mod 256)].
Proof.
  intros Hv. unfold pack_b.
  replace ((-128 <=? v) && (v <=? 127)) with true; [reflexivity|].
  symmetry; apply andb_true_iff; split; apply Z.leb_le; lia.
Qed.

(** C2, as the code has it.  When the input is a sequence of whole 4-byte
    groups and in every group the two samples add up to less than 65280,
    the conversion of [write] emits exactly one byte per group, whose signed
    value is [round((v1+v2)/512)] (ties to even); that value then lies in
    [-128..127] by itself, no clamping takes place. *)
Theorem downsample_groups (gs : list group) :
  Forall (fun g => group_sum g < 65280) gs ->
  exists out : bytes,
    downsample (flat_map group_bytes gs) = Return out
    /\ map int8 out = map (fun g => py_round (truediv (group_sum g) 512)) gs
    /\ Forall (fun g => -128 <= py_round (truediv (group_sum g) 512) <= 127) gs.
Proof.
  induction 1 as [|g gs Hg Hgs (out & Hout & Hval & Hrange)].
  - exists []. repeat split; constructor.
  - pose proof (group_sum_range g) as Hs.
    pose proof (py_round_512_bounds (group_sum g) ltac:(lia)) as Hb.
    destruct g as [[[b0 b1] b2] b3].
    exists (byte_of_Z (py_round (truediv (group_sum (b0, b1, b2, b3)) 512) mod 256) :: out).
    cbn [flat_map group_bytes app].
    rewrite downsample_group.
    change (unpack_h b0 b1 + unpack_h b2 b3) with (group_sum (b0, b1, b2, b3)).
    rewrite pack_b_in_range by assumption.
    cbn [bind]. rewrite Hout. cbn [bind app map].
    rewrite int8_of_Z by assumption. rewrite Hval.
    repeat split; [constructor; assumption].
Qed.

Lemma downsample_groups_witness :
  exists out : bytes,
    downsample (flat_map group_bytes [(x00, x01, x00, x03); (x00, xff, x00, xff)])
    = Return out
    /\ map int8 out
       = map (fun g => py_round (truediv (group_sum g) 512))
             [(x00, x01, x00, x03); (x00, xff, x00, xff)]
    /\ Forall (fun g => -128 <= py_round (truediv (group_sum g) 512) <= 127)
              [(x00, x01, x00, x03); (x00, xff, x00, xff)].
Proof.
  apply (downsample_groups [(x00, x01, x00, x03); (x00, xff, x00, xff)]).
  repeat constructor.
Defined.

(** C2 as stated fails on the code: two full-scale samples round to 128,
    which [struct.pack('b', ...)] refuses instead of clamping to 127, and a
    fifth byte after a whole group makes [struct.unpack_from] raise instead
    of being dropped. *)
Lemma downsample_neither_clamps_nor_drops :
  group_sum (xff, x7f, xff, x7f) = 65534
  /\ py_round (truediv 65534 512) = 128
  /\ downsample [xff; x7f; xff; x7f] = Raise StructError
  /\ downsample [x00; x01; x00; x03] = Return [x02]
  /\ downsample [x00; x01; x00; x03; x00] = Raise StructError.
Proof. repeat split. Qed.

(** ** Public API *)

(** C1 fails on the code.  With an audio session open, [write] in the
    extended format raises [struct.error] on two full-scale samples, whatever
    the transport does, although its docstring promises [False] on error; a
    second [close] raises on [None.join()]. *)
Theorem public_api_raises (tx : list (outcome Z)) :
  write (set_audio init (Some SCO_socket) 48) [xff; x7f; xff; x7f]
        AUDIO_16KHZ_SIGNED_16BIT_LE_MONO tx = ([], Some (Raise StructError))
  /\ snd (close (set_pt init None)) = Raise AttributeError.
Proof. split; reflexivity. Qed.

(** Without a session [read] and [write] return their sentinels, and a
    transport failure ([BluetoothError]) is turned into them. *)
Lemma read_write_sentinels (self : BluetoothAudio) (format : Z) (data : bytes)
      (rx : outcome bytes) (tx : list (outcome Z)) (msg : string) :
  (audio self = None ->
   read self format rx = Return None
   /\ write self data format tx = ([], Some (Return false)))
  /\ read self format (Raise (BluetoothError msg)) = Return None.
Proof.
  split.
  - intros Ha. unfold read, write. rewrite Ha. split; reflexivity.
  - unfold read. destruct (audio self); reflexivity.
Qed.

(** ** Audio link *)

Lemma sco_mtu_range (s : sco) (mtu : Z) : sco_mtu s = Some mtu -> 0 <= mtu <= 65535.
Proof.
  unfold sco_mtu.
  destruct (sco_open s); [|discriminate].
  destruct (sco_connect s); [|discriminate].
  destruct (sco_getsockopt s) as [[|o0 [|o1 [|]]]|]; try discriminate.
  intros H. injection H as <-. unfold unpack_H.
  pose proof (byte_val_range o0); pose proof (byte_val_range o1). lia.
Qed.

(** An audio connect that goes through records the session together with
    [sco_payload = mtu - 16], [mtu] being the value read back. *)
Lemma connect_audio_payload (self : BluetoothAudio) (s : sco) (mtu : Z) :
  sco_mtu s = Some mtu ->
  connect_audio self s
  = ([ConnectAudio],
     Return (set_audio self (Some SCO_socket) (mtu - SCO_HEADERS_SIZE))).
Proof.
  unfold sco_mtu, connect_audio.
  destruct (sco_open s) as [[]|]; [|discriminate].
  destruct (sco_connect s) as [[]|]; [|discriminate].
  destruct (sco_getsockopt s) as [[|o0 [|o1 [|]]]|]; try discriminate.
  intros H. injection H as <-. reflexivity.
Qed.

(** In every other case the object is left as it was. *)
Lemma connect_audio_no_mtu (self : BluetoothAudio) (s : sco) (self' : BluetoothAudio) :
  sco_mtu s = None ->
  snd (connect_audio self s) = Return self' -> self' = self.
Proof.
  unfold sco_mtu, connect_audio.
  destruct (sco_open s) as [[]|e0]; [|cbn; discriminate].
  destruct (sco_connect s) as [[]|[msg| | | | | |]]; cbn; try discriminate;
    [|intros _ H; injection H as <-; reflexivity].
  destruct (sco_getsockopt s) as [[|o0 [|o1 [|]]]|]; cbn; discriminate.
Qed.

(** The cases of [_connect_audio]. *)
Lemma connect_audio_cases (self : BluetoothAudio) (s : sco) :
  (exists mtu, sco_mtu s = Some mtu
               /\ connect_audio self s
                  = ([ConnectAudio],
                     Return (set_audio self (Some SCO_socket) (mtu - SCO_HEADERS_SIZE))))
  \/ (sco_mtu s = None
      /\ connect_audio self s = ([ConnectAudio; CloseAudio], Return self))
  \/ (sco_mtu s = None /\ ~ sco_quiet s
      /\ exists e, connect_audio self s = ([ConnectAudio], Raise e)).
Proof.
  unfold sco_quiet, sco_mtu, connect_audio.
  destruct (sco_open s) as [[]|e0].
  2:{ right; right. repeat split; auto. eexists; reflexivity. }
  destruct (sco_connect s) as [[]|[msg| | | | | |]];
    try (right; right; repeat split; auto; eexists; reflexivity);
    [|right; left; split; reflexivity].
  destruct (sco_getsockopt s) as [[|o0 [|o1 [|]]]|];
    try (right; right; repeat split; auto; eexists; reflexivity).
  left. eexists; split; reflexivity.
Qed.

(** ** Tone generator *)

Lemma pow2_pos (e : Z) : (0 < pow2 e)%Q.
Proof. apply Qpower_0_lt. reflexivity. Qed.

Lemma pow2_add (a b : Z) : (pow2 (a + b) == pow2 a * pow2 b)%Q.
Proof. apply Qpower_plus. discriminate. Qed.

Lemma pow2_le (a b : Z) : a <= b -> (pow2 a <= pow2 b)%Q.
Proof. intros H. apply Qpower_le_compat_l; [exact H | discriminate]. Qed.

Lemma pow2_lt_inv (a b : Z) : (pow2 a < pow2 b)%Q -> a < b.
Proof. intros H. apply (Qpower_lt_compat_l_inv 2); [exact H | reflexivity]. Qed.

Lemma pow2_inject (e : Z) : 0 <= e -> (pow2 e == inject_Z (2 ^ e))%Q.
Proof. intros H. unfold pow2. rewrite (Zpower_Qpower 2 e H). reflexivity. Qed.

Lemma pow2_scale (c j e : Z) :
  e <= j -> (inject_Z (c * 2 ^ (j - e)) * pow2 e == inject_Z c * pow2 j)%Q.
Proof.
  intros H. rewrite inject_Z_mult, <- (pow2_inject (j - e)) by lia.
  replace j with ((j - e) + e) at 2 by ring. rewrite pow2_add. ring.
Qed.

(** [round] against integers. *)
Lemma py_round_le (x : Q) (c : Z) : (x <= inject_Z c)%Q -> py_round x <= c.
Proof.
  destruct x as [n d]. unfold Qle, py_round. cbn [Qnum Qden inject_Z].
  intros H. rewrite Z.mul_1_r in H.
  pose proof (Z.div_mod n (Zpos d) ltac:(discriminate)) as E.
  pose proof (Z.mod_pos_bound n (Zpos d) ltac:(reflexivity)) as B.
  assert (n / Zpos d <= c) by (apply Z.div_le_upper_bound; lia).
  destruct (2 * (n mod Zpos d) ?= Zpos d) eqn:C.
  - apply Z.compare_eq in C. destruct (Z.even (n / Zpos d)); [lia|]. nia.
  - lia.
  - rewrite Z.compare_gt_iff in C. nia.
Qed.

Lemma py_round_ge (x : Q) (c : Z) : (inject_Z c <= x)%Q -> c <= py_round x.
Proof.
  destruct x as [n d]. unfold Qle, py_round. cbn [Qnum Qden inject_Z].
  intros H. rewrite Z.mul_1_r in H.
  assert (c <= n / Zpos d) by (apply Z.div_le_lower_bound; lia).
  destruct (2 * (n mod Zpos d) ?= Zpos d); [destruct (Z.even (n / Zpos d))| |]; lia.
Qed.


Lemma Qmake_den (n : Z) (d : positive) : ((n # d) * inject_Z (Zpos d) == inject_Z n)%Q.
Proof. unfold Qeq, Qmult, inject_Z. cbn [Qnum Qden]. lia. Qed.

Lemma ilog2_spec (n d : positive) :
  (pow2 (ilog2 n d) <= Zpos n # d)%Q /\ (Zpos n # d < pow2 (ilog2 n d + 1))%Q.
Proof.
  unfold ilog2.
  set (a := Z.log2 (Zpos n)). set (b := Z.log2 (Zpos d)).
  destruct (Z.log2_spec (Zpos n) ltac:(reflexivity)) as [Ha1 Ha2]. fold a in Ha1, Ha2.
  destruct (Z.log2_spec (Zpos d) ltac:(reflexivity)) as [Hb1 Hb2]. fold b in Hb1, Hb2.
  assert (0 <= a) by apply Z.log2_nonneg. assert (0 <= b) by apply Z.log2_nonneg.
  assert (Hx : (0 < Zpos n # d)%Q) by reflexivity.
  pose proof (Qmake_den (Zpos n) d) as Hnd.
  assert (Hlow : (pow2 (a - b - 1) <= Zpos n # d)%Q).
  { apply (Qmult_le_r _ _ (pow2 (b + 1))); [apply pow2_pos|].
    rewrite <- pow2_add. replace (a - b - 1 + (b + 1)) with a by ring.
    apply Qle_trans with (inject_Z (Zpos n)).
    - rewrite pow2_inject by lia. rewrite <- Zle_Qle. exact Ha1.
    - rewrite <- Hnd. apply Qmult_le_l; [exact Hx|].
      rewrite pow2_inject by lia. rewrite <- Zle_Qle. lia. }
  assert (Hup : (Zpos n # d < pow2 (a - b + 1))%Q).
  { apply (Qmult_lt_r _ _ (pow2 b)); [apply pow2_pos|].
    rewrite <- pow2_add. replace (a - b + 1 + b) with (a + 1) by ring.
    apply Qle_lt_trans with (inject_Z (Zpos n)).
    - rewrite <- Hnd. apply Qmult_le_l; [exact Hx|].
      rewrite pow2_inject by lia. rewrite <- Zle_Qle. exact Hb1.
    - rewrite pow2_inject by lia. rewrite <- Zlt_Qlt. lia. }
  destruct (Qle_bool (pow2 (a - b)) (Zpos n # d)) eqn:C.
  - split; [apply Qle_bool_iff, C | exact Hup].
  - split; [exact Hlow|]. replace (a - b - 1 + 1) with (a - b) by ring.
    apply Qnot_le_lt. intros L. apply Qle_bool_iff in L. congruence.
Qed.

(** The exponent of a magnitude bounded by [N * 2 ** j], [N < 2 ** 53]. *)
Lemma exponent_le (n d : positive) (N j : Z) :
  -1074 <= j -> N < 2 ^ 53 ->
  (Zpos n # d <= inject_Z N * pow2 j)%Q ->
  Z.max (-1074) (ilog2 n d - 52) <= j.
Proof.
  intros Hj HN Hx. destruct (ilog2_spec n d) as [Hl _].
  assert (ilog2 n d < 53 + j); [|lia].
  apply pow2_lt_inv. eapply Qle_lt_trans; [exact Hl|].
  eapply Qle_lt_trans; [exact Hx|]. rewrite pow2_add.
  apply Qmult_lt_r; [apply pow2_pos|].
  rewrite pow2_inject by lia. rewrite <- Zlt_Qlt. exact HN.
Qed.

(** Rounding onto the grid [2 ** e] against the grid points. *)
Lemma round_grid_le (x : Q) (e c : Z) :
  (x <= inject_Z c * pow2 e)%Q ->
  (inject_Z (py_round (x / pow2 e)) * pow2 e <= inject_Z c * pow2 e)%Q.
Proof.
  intros H. apply Qmult_le_r; [apply pow2_pos|]. rewrite <- Zle_Qle.
  apply py_round_le. apply Qle_shift_div_r; [apply pow2_pos | exact H].
Qed.

Lemma round_grid_ge (x : Q) (e c : Z) :
  (inject_Z c * pow2 e <= x)%Q ->
  (inject_Z c * pow2 e <= inject_Z (py_round (x / pow2 e)) * pow2 e)%Q.
Proof.
  intros H. apply Qmult_le_r; [apply pow2_pos|]. rewrite <- Zle_Qle.
  apply py_round_ge. apply Qle_shift_div_l; [apply pow2_pos | exact H].
Qed.


Lemma round_double_le (negative : bool) (n d : positive) (N j : Z) :
  -1074 <= j -> N < 2 ^ 53 -> (inject_Z N * pow2 j < pow2 1024)%Q ->
  (Zpos n # d <= inject_Z N * pow2 j)%Q ->
  exists y, round_double negative n d = Fin (if negative then - y else y)
            /\ (0 <= y <= inject_Z N * pow2 j)%Q
            /\ ((inject_Z N * pow2 j <= Zpos n # d)%Q -> (y == Zpos n # d)%Q).
Proof.
  intros Hj HN L Hx. unfold round_double.
  pose proof (exponent_le n d N j Hj HN Hx) as He.
  set (e := Z.max (-1074) (ilog2 n d - 52)) in *.
  set (y := (inject_Z (py_round ((Zpos n # d) / pow2 e)) * pow2 e)%Q).
  pose proof (pow2_scale N j e He) as Hc.
  assert (Hy : (y <= inject_Z N * pow2 j)%Q).
  { rewrite <- Hc. apply round_grid_le. rewrite Hc. exact Hx. }
  assert (H0 : (0 <= y)%Q).
  { pose proof (round_grid_ge (Zpos n # d) e 0) as G. fold y in G.
    rewrite Qmult_0_l in G. apply G. discriminate. }
  assert (Hov : Qle_bool (pow2 1024) y = false).
  { destruct (Qle_bool (pow2 1024) y) eqn:C; [|reflexivity].
    apply Qle_bool_iff in C. exfalso.
    apply (Qlt_irrefl y). eapply Qle_lt_trans; [exact Hy|].
    eapply Qlt_le_trans; [exact L | exact C]. }
  rewrite Hov. exists y. split; [reflexivity|]. split; [split; assumption|].
  intros Hge. apply Qle_antisym.
  - eapply Qle_trans; [exact Hy | exact Hge].
  - eapply Qle_trans; [exact Hx|]. rewrite <- Hc. apply round_grid_ge.
    rewrite Hc. exact Hge.
Qed.


(** A magnitude of at least 1 rounds to one of at least 1. *)
Lemma round_double_ge_one (negative : bool) (n d : positive) (y : Q) :
  (1 <= Zpos n # d)%Q -> round_double negative n d = Fin y -> (1 <= Qabs y)%Q.
Proof.
  intros Hx. unfold round_double.
  destruct (ilog2_spec n d) as [Hl Hu].
  assert (Hi : 0 <= ilog2 n d).
  { assert (0 < ilog2 n d + 1); [|lia].
    apply pow2_lt_inv. eapply Qle_lt_trans; [|exact Hu]. exact Hx. }
  assert (He : Z.max (-1074) (ilog2 n d - 52) <= ilog2 n d) by lia.
  set (e := Z.max (-1074) (ilog2 n d - 52)) in *.
  set (m := (inject_Z (py_round ((Zpos n # d) / pow2 e)) * pow2 e)%Q).
  pose proof (pow2_scale 1 (ilog2 n d) e He) as Hc.
  change (inject_Z 1) with 1%Q in Hc. rewrite Qmult_1_l in Hc.
  assert (Hm : (1 <= m)%Q).
  { apply Qle_trans with (pow2 (ilog2 n d)); [apply (pow2_le 0); exact Hi|].
    rewrite <- Hc. apply round_grid_ge. rewrite Hc. exact Hl. }
  destruct (Qle_bool (pow2 1024) m); [discriminate|].
  intros E. injection E as <-.
  destruct negative; [rewrite Qabs_opp|]; rewrite Qabs_pos; lra.
Qed.

Lemma to_double_ge_one (x y : Q) :
  (1 <= Qabs x)%Q -> to_double x = Fin y -> (1 <= Qabs y)%Q.
Proof.
  destruct x as [[|n|n] d]; unfold to_double; cbn [Qnum Qden]; intros Hx.
  - exfalso. revert Hx. unfold Qle. cbn. lia.
  - apply round_double_ge_one. exact Hx.
  - apply round_double_ge_one. exact Hx.
Qed.


(** A rational bounded by a double [N * 2 ** j] rounds to a finite double
    within the same bound, and to itself when it is that double. *)
Lemma to_double_le (x : Q) (N j : Z) :
  -1074 <= j -> N < 2 ^ 53 -> (inject_Z N * pow2 j < pow2 1024)%Q ->
  (Qabs x <= inject_Z N * pow2 j)%Q ->
  exists y, to_double x = Fin y
            /\ (Qabs y <= inject_Z N * pow2 j)%Q
            /\ (0 <= x -> 0 <= y)%Q
            /\ ((inject_Z N * pow2 j <= Qabs x)%Q -> (y == x)%Q).
Proof.
  intros Hj HN L Hx. destruct x as [[|n|n] d]; unfold to_double; cbn [Qnum Qden].
  - exists 0%Q. split; [reflexivity|].
    split; [eapply Qle_trans; [apply Qabs_nonneg | exact Hx]|].
    split; [intros _; discriminate|]. intros _. reflexivity.
  - change (Qabs (Zpos n # d)) with (Zpos n # d) in *.
    destruct (round_double_le false n d N j Hj HN L Hx) as (y & E & [H0 Hy] & He).
    exists y. split; [exact E|]. rewrite (Qabs_pos y H0).
    split; [exact Hy|]. split; [intros _; exact H0 | exact He].
  - change (Qabs (Zneg n # d)) with (Zpos n # d) in *.
    destruct (round_double_le true n d N j Hj HN L Hx) as (y & E & [H0 Hy] & He).
    exists (- y)%Q. split; [exact E|]. rewrite Qabs_opp, (Qabs_pos y H0).
    split; [exact Hy|]. split.
    + intros Hn. exfalso. revert Hn. unfold Qle. cbn. lia.
    + intros Hge. rewrite (He Hge). reflexivity.
Qed.



(** Ints up to [2 ** 1020] in magnitude convert to a finite float of at most
    that magnitude, a nonzero one to a float of magnitude at least 1. *)
Lemma float_of_int_le (z : Z) :
  Z.abs z <= 2 ^ 1020 ->
  exists y, float_of_int z = Return (Fin y)
            /\ (Qabs y <= pow2 1020)%Q
            /\ (z <> 0 -> (1 <= Qabs y)%Q).
Proof.
  intros Hz. unfold float_of_int.
  assert (A : (Qabs (inject_Z z) == inject_Z (Z.abs z))%Q) by reflexivity.
  destruct (to_double_le (inject_Z z) 1 1020 ltac:(lia) ltac:(reflexivity)
                         ltac:(reflexivity))
    as (y & Ey & Hy & _).
  { rewrite A. change (inject_Z 1) with 1%Q. rewrite Qmult_1_l.
    rewrite pow2_inject by lia. rewrite <- Zle_Qle. exact Hz. }
  change (inject_Z 1) with 1%Q in Hy. rewrite Qmult_1_l in Hy.
  rewrite Ey. exists y. split; [reflexivity|]. split; [exact Hy|].
  intros Hnz. apply (to_double_ge_one (inject_Z z)); [|exact Ey].
  rewrite A. rewrite <- (Zle_Qle 1). lia.
Qed.



Lemma py_int_bound (v : Q) (k : Z) :
  (Qabs v <= inject_Z k)%Q -> - k <= py_int v <= k.
Proof.
  destruct v as [n d]. unfold Qabs, Qle, py_int. cbn [Qnum Qden inject_Z].
  intros H. rewrite Z.mul_1_r in H.
  assert (Hq : Z.abs (n ÷ Zpos d) <= k).
  { rewrite <- Z.quot_abs by discriminate. change (Z.abs (Zpos d)) with (Zpos d).
    apply Z.quot_le_upper_bound; lia. }
  lia.
Qed.




Lemma fmul_bound (x y : Q) (N j : Z) :
  -1074 <= j -> N < 2 ^ 53 -> (inject_Z N * pow2 j < pow2 1024)%Q ->
  (Qabs x * Qabs y <= inject_Z N * pow2 j)%Q ->
  exists v, fmul (Fin x) (Fin y) = Fin v /\ (Qabs v <= inject_Z N * pow2 j)%Q.
Proof.
  intros Hj HN L H. cbn [fmul].
  destruct (to_double_le (x * y) N j Hj HN L) as (v & E & Hv & _).
  - rewrite Qabs_Qmult. exact H.
  - exists v. split; assumption.
Qed.

Lemma beep_val_finite (math_sin : Q -> Q) (amplitude : num) (a : Q) (i period : Z) :
  (forall x, -1 <= math_sin x <= 1)%Q ->
  to_float amplitude = Return (Fin a) -> (0 <= a <= 1)%Q ->
  period <> 0 -> Z.abs period <= 2 ^ 1020 ->
  exists v, beep_val math_sin amplitude i period = Return (Fin v)
            /\ (Qabs v <= 32767)%Q.
Proof.
  intros Hsin Ha [Ha0 Ha1] Hp0 Hp. unfold beep_val. rewrite Ha. cbn [bind].
  assert (P0 : forall q, (q * pow2 0 == q)%Q).
  { intros q. change (pow2 0) with 1%Q. apply Qmult_1_r. }
  destruct (fmul_bound 32767 a 32767 0 ltac:(lia) ltac:(reflexivity)
                       ltac:(reflexivity))
    as (t1 & E1 & H1).
  { rewrite P0, (Qabs_pos a Ha0). change (Qabs 32767) with 32767%Q.
    change (inject_Z 32767) with 32767%Q. lra. }
  rewrite P0 in H1. rewrite E1.
  destruct (fmul_bound 2 math_pi 8 0 ltac:(lia) ltac:(reflexivity)
                       ltac:(reflexivity))
    as (t2 & E2 & H2).
  { vm_compute. discriminate. }
  rewrite P0 in H2. rewrite E2.
  unfold py_mod. destruct (Z.eqb_spec period 0) as [|_]; [contradiction|].
  cbn [bind].
  assert (Hm : Z.abs (i mod period) <= 2 ^ 1020).
  { destruct (Z.lt_ge_cases 0 period).
    - pose proof (Z.mod_pos_bound i period ltac:(lia)). lia.
    - pose proof (Z.mod_neg_bound i period ltac:(lia)). lia. }
  destruct (float_of_int_le (i mod period) Hm) as (fm & Em & Afm & _).
  destruct (float_of_int_le period Hp) as (fp & Ep & _ & Afp).
  specialize (Afp Hp0).
  rewrite Em, Ep. cbn [bind].
  destruct (fmul_bound t2 fm 1 1023 ltac:(lia) ltac:(reflexivity)
                       ltac:(reflexivity)) as (t3 & E3 & H3).
  { setoid_replace (inject_Z 1 * pow2 1023)%Q with (8 * pow2 1020)%Q
      by reflexivity.
    apply Qmult_le_compat_nonneg; split;
      [apply Qabs_nonneg | exact H2 | apply Qabs_nonneg | exact Afm]. }
  rewrite E3. cbn [fdiv].
  destruct (Qeq_bool fp 0) eqn:Z0.
  { apply Qeq_bool_iff in Z0. rewrite Z0 in Afp. exfalso. revert Afp.
    vm_compute. intros C. apply C. reflexivity. }
  cbn [bind].
  destruct (to_double_le (t3 / fp) 1 1023 ltac:(lia) ltac:(reflexivity)
                         ltac:(reflexivity))
    as (x & Ex & _).
  { unfold Qdiv. rewrite Qabs_Qmult, Qabs_Qinv.
    apply Qle_shift_div_r; [lra|].
    eapply Qle_trans; [exact H3|].
    rewrite <- (Qmult_1_r (inject_Z 1 * pow2 1023)) at 1.
    apply Qmult_le_l; [reflexivity | exact Afp]. }
  rewrite Ex. cbn [py_sin bind].
  destruct (fmul_bound t1 (math_sin x) 32767 0 ltac:(lia) ltac:(reflexivity)
                       ltac:(reflexivity))
    as (v & Ev & Hv).
  { rewrite P0. change (inject_Z 32767) with 32767%Q.
    assert (Qabs (math_sin x) <= 1)%Q by (apply Qabs_Qle_condition, Hsin).
    rewrite <- (Qmult_1_r 32767).
    apply Qmult_le_compat_nonneg; split;
      [apply Qabs_nonneg | exact H1 | apply Qabs_nonneg | assumption]. }
  rewrite P0 in Hv. exists v. split; [rewrite Ev; reflexivity | exact Hv].
Qed.





Lemma pack_h_le16 (v : Z) : -32768 <= v <= 32767 -> pack_h v = Return (le16 v).
Proof.
  intros Hv. unfold pack_h.
  replace ((-32768 <=? v) && (v <=? 32767)) with true; [reflexivity|].
  symmetry; apply andb_true_iff; split; apply Z.leb_le; lia.
Qed.

Lemma samples_of_le16 (v : Z) (rest : bytes) :
  -32768 <= v <= 32767 -> samples_of (le16 v ++ rest) = v :: samples_of rest.
Proof.
  intros Hv. destruct (pack_h_unpack v Hv) as (b0 & b1 & Hp & Hu).
  rewrite pack_h_le16 in Hp by assumption.
  assert (le16 v = [b0; b1]) as -> by congruence.
  cbn [app samples_of]. rewrite Hu. reflexivity.
Qed.

Lemma samples_of_flat_map {A : Type} (val : A -> Z) (xs : list A) :
  (forall x, In x xs -> -32768 <= val x <= 32767) ->
  samples_of (flat_map (fun x => le16 (val x)) xs) = map val xs.
Proof.
  induction xs as [|x xs IH]; intros H; [reflexivity|].
  cbn [flat_map map]. rewrite samples_of_le16 by (apply H; left; reflexivity).
  rewrite IH by (intros; apply H; right; assumption). reflexivity.
Qed.




(** [val] depends on [i] through [i % period] only. *)
Lemma beep_val_shift (math_sin : Q -> Q) (amplitude : num) (i period : Z) :
  beep_val math_sin amplitude (i + period) period
  = beep_val math_sin amplitude i period.
Proof.
  unfold beep_val, py_mod.
  replace ((i + period) mod period) with (i mod period); [reflexivity|].
  rewrite <- (Z.mul_1_l period) at 2.
  destruct (Z.eq_dec period 0) as [->|Hp].
  - rewrite Z.add_0_r. reflexivity.
  - symmetry. apply Z.mod_add. exact Hp.
Qed.

(** With a nonzero period of at most [2 ** 1020], an amplitude in [0, 1] and a
    sine in [-1, 1] every [val] is finite and fits a signed 16-bit sample, so
    the loop of [beep] runs to its end. *)
Lemma beep_samples_values (math_sin : Q -> Q) (length_ms frequency amplitude : num)
      (a : Q) (period length : Z) :
  (forall x, -1 <= math_sin x <= 1)%Q ->
  to_float amplitude = Return (Fin a) -> (0 <= a <= 1)%Q ->
  beep_period frequency = Return period ->
  period <> 0 -> Z.abs period <= 2 ^ 1020 ->
  beep_length length_ms = Return length ->
  (forall i, exists v, beep_val math_sin amplitude i period = Return (Fin v)
                       /\ sample_at math_sin amplitude period i = py_int v
                       /\ -32768 <= py_int v <= 32767)
  /\ beep_samples math_sin length_ms frequency amplitude
     = Return (flat_map (fun i => le16 (sample_at math_sin amplitude period i))
                        (py_range 0 length 1)).
Proof.
  intros Hsin Ha Hamp Hper Hnz Hbig Hlen.
  assert (Hval : forall i, exists v,
             beep_val math_sin amplitude i period = Return (Fin v)
             /\ sample_at math_sin amplitude period i = py_int v
             /\ -32768 <= py_int v <= 32767).
  { intros i.
    destruct (beep_val_finite math_sin amplitude a i period Hsin Ha Hamp Hnz Hbig)
      as (v & E & Hv).
    exists v. split; [exact E|]. split; [unfold sample_at; rewrite E; reflexivity|].
    pose proof (py_int_bound v 32767 Hv). lia. }
  split; [exact Hval|].
  unfold beep_samples. rewrite Hper, Hlen. cbn [bind].
  rewrite (for_each_ext _
             (fun s i =>
                p <- (val <- beep_val math_sin amplitude i period ;;
                      v <- int_of_float val ;; pack_h v) ;;
                Return (s ++ p))).
  - apply (for_each_append_total
             _ (fun i => le16 (sample_at math_sin amplitude period i)) _ []).
    intros i _. destruct (Hval i) as (v & E & Es & Hv).
    rewrite E, Es. cbn [bind int_of_float]. apply pack_h_le16, Hv.
  - intros s i _. destruct (beep_val math_sin amplitude i period) as [val|e];
      [|reflexivity].
    cbn [bind]. destruct (int_of_float val); reflexivity.
Qed.


Lemma sin_clamped_range (x : Q) : (-1 <= sin_clamped x <= 1)%Q.
Proof.
  unfold sin_clamped. split.
  - apply Q.le_max_l.
  - apply Q.max_lub; [discriminate|apply Q.le_min_l].
Qed.



(** The quotient [8000 / frequency] is a rounded one: at the double
    [470.5882352941177] the exact quotient lies below 17 and the double
    quotient is [17.0], so the period is 17.  A frequency so small that the
    quotient overflows gives no period at all. *)
Lemma beep_period_rounded_quotient :
  is_double (4139337892803765 # 8796093022208) = true
  /\ py_int (8000 / (4139337892803765 # 8796093022208))%Q = 16
  /\ beep_period (Flt (Fin (4139337892803765 # 8796093022208))) = Return 17
  /\ is_double (pow2 (-1074)) = true
  /\ beep_period (Flt (Fin (pow2 (-1074)))) = Raise OverflowError.
Proof. vm_compute. repeat split. Qed.

(** ** Channel resolver *)

Lemma lower_classes_distinct :
  String.eqb (lower HEADSET_CLASS) (lower HANDSFREE_CLASS) = false
  /\ String.eqb (lower GENERIC_AUDIO_CLASS) (lower HANDSFREE_CLASS) = false
  /\ String.eqb (lower GENERIC_AUDIO_CLASS) (lower HEADSET_CLASS) = false.
Proof. repeat split. Qed.

(** The inner loop: Handsfree anywhere in the record returns its port;
    otherwise each of the two variables is overwritten when its class occurs. *)
Lemma scan_classes_spec (classes : list string) (p : Z) (hsp gen : option Z) :
  scan_classes classes p hsp gen =
  if existsb (fun c => String.eqb (lower HANDSFREE_CLASS) (lower c)) classes
  then Found p
  else Scanning
         (if existsb (fun c => String.eqb (lower HEADSET_CLASS) (lower c)) classes
          then Some p else hsp)
         (if existsb (fun c => String.eqb (lower GENERIC_AUDIO_CLASS) (lower c)) classes
          then Some p else gen).
Proof.
  destruct lower_classes_distinct as (D1 & D2 & D3).
  revert hsp gen; induction classes as [|c rest IH]; intros hsp gen; [reflexivity|].
  cbn [scan_classes existsb].
  destruct (String.eqb_spec (lower HANDSFREE_CLASS) (lower c)) as [Ehf|Nhf];
    [reflexivity|].
  destruct (String.eqb_spec (lower HEADSET_CLASS) (lower c)) as [Ehs|Nhs].
  - rewrite <- Ehs, D3, IH. cbn [orb].
    destruct (existsb _ rest); [reflexivity|].
    destruct (existsb _ rest); reflexivity.
  - destruct (String.eqb_spec (lower GENERIC_AUDIO_CLASS) (lower c)) as [Ega|Nga];
      rewrite IH; cbn [orb]; [|reflexivity].
    destruct (existsb _ rest); [reflexivity|].
    destruct (existsb _ rest); destruct (existsb _ rest); reflexivity.
Qed.

(** The outer loop, for arbitrary starting values of the two variables. *)
Lemma scan_services_spec (services : list service) (hsp gen : option Z) :
  scan_services services hsp gen =
  match find (has_class HANDSFREE_CLASS) services with
  | Some svc => Found (port svc)
  | None => Scanning (last_port_from hsp HEADSET_CLASS services)
                     (last_port_from gen GENERIC_AUDIO_CLASS services)
  end.
Proof.
  revert hsp gen; induction services as [|svc rest IH]; intros hsp gen;
    [reflexivity|].
  cbn [scan_services find]. rewrite scan_classes_spec.
  fold (has_class HANDSFREE_CLASS svc).
  destruct (has_class HANDSFREE_CLASS svc); [reflexivity|].
  rewrite IH. reflexivity.
Qed.

(** C5, as the code has it.  The resolver returns the port of the first
    record that advertises Handsfree; when no record does, the port of the
    last Headset record provided it is not zero; otherwise the port of the
    last GenericAudio record; otherwise no channel. *)
Theorem resolve_channel_priority (services : list service) :
  resolve_channel services = resolve_by_priority services.
Proof.
  unfold resolve_channel, resolve_by_priority, last_port.
  rewrite scan_services_spec.
  destruct (find (has_class HANDSFREE_CLASS) services); reflexivity.
Qed.

(** C5 as stated fails on the code: a Headset record was seen, yet the
    GenericAudio channel is returned because the Headset port is 0. *)
Lemma headset_port_zero_skipped :
  let services := [mkService [HEADSET_CLASS] 0; mkService [GENERIC_AUDIO_CLASS] 5] in
  find (has_class HANDSFREE_CLASS) services = None
  /\ last_port HEADSET_CLASS services = Some 0
  /\ resolve_channel services = Some 5
  /\ resolve_channel services <> last_port HEADSET_CLASS services.
Proof. cbv zeta. repeat split. discriminate. Qed.

Example resolve_generic_only :
  resolve_channel [mkService [GENERIC_AUDIO_CLASS] 5] = Some 5.
Proof. reflexivity. Qed.

Example resolve_handsfree_wins :
  resolve_channel [mkService [HEADSET_CLASS] 3; mkService [HANDSFREE_CLASS] 7]
  = Some 7.
Proof. reflexivity. Qed.

(** ** AT command loop *)

Lemma bytes_eqb_eq (x y : bytes) : bytes_eqb x y = true -> x = y.
Proof.
  revert y; induction x as [|c x IH]; intros [|d y] H; try discriminate;
    [reflexivity|].
  cbn in H. apply andb_true_iff in H as [Hc Hx].
  apply Byte.byte_dec_bl in Hc. subst. f_equal. auto.
Qed.

Lemma bytes_eqb_refl (x : bytes) : bytes_eqb x x = true.
Proof.
  induction x as [|c x IH]; [reflexivity|].
  cbn. rewrite IH, Byte.byte_dec_lb; reflexivity.
Qed.

Lemma starts_with_app (needle post : bytes) : starts_with needle (needle ++ post) = true.
Proof.
  induction needle as [|c n IH]; [reflexivity|].
  cbn. rewrite IH, Byte.byte_dec_lb; reflexivity.
Qed.

Lemma starts_with_split (needle hay : bytes) :
  starts_with needle hay = true -> exists post, hay = needle ++ post.
Proof.
  revert hay; induction needle as [|c n IH]; intros hay H.
  - exists hay; reflexivity.
  - destruct hay as [|d h]; [discriminate|].
    cbn in H. apply andb_true_iff in H as [Hc Hn].
    apply Byte.byte_dec_bl in Hc. destruct (IH _ Hn) as (post & ->).
    exists post. subst. reflexivity.
Qed.

(** [bytes_in] is the substring test. *)
Lemma bytes_in_iff (needle hay : bytes) :
  bytes_in needle hay = true <-> exists pre post, hay = pre ++ needle ++ post.
Proof.
  split.
  - induction hay as [|d h IH]; cbn [bytes_in]; intros H.
    + rewrite orb_false_r in H. apply starts_with_split in H as (post & E).
      exists [], post. exact E.
    + apply orb_true_iff in H as [H|H].
      * apply starts_with_split in H as (post & E). exists [], post. exact E.
      * destruct (IH H) as (pre & post & ->). exists (d :: pre), post. reflexivity.
  - intros (pre & post & ->). induction pre as [|d pre IH].
    + cbn [app]. destruct (needle ++ post) eqn:E; cbn [bytes_in];
        rewrite <- ?E, starts_with_app; reflexivity.
    + cbn [app bytes_in]. rewrite IH. apply orb_true_r.
Qed.

(** The grace-period block writes nothing to the control socket; it returns
    unless its audio connect lets something escape. *)
Lemma grace_cases (self : BluetoothAudio) (notice : bool) (audio_time : Q)
      (t : tick) :
  sent_bytes (fst (grace self notice audio_time t)) = []
  /\ (audio self <> None \/ (now t <= audio_time)%Q \/ sco_quiet (sco_grace t) ->
      exists st, snd (grace self notice audio_time t) = Return st).
Proof.
  unfold grace.
  destruct (audio self) eqn:Ha; [split; [reflexivity|eexists; reflexivity]|].
  destruct (Qlt_le_dec audio_time (now t)) as [Hlt|Hle];
    [|split; [reflexivity|eexists; reflexivity]].
  destruct (connect_audio_cases self (sco_grace t))
    as [(mtu & Hm & ->)|[(Hm & ->)|(Hm & Hq & e & ->)]];
    destruct notice; cbn; (split; [reflexivity|]);
    try (intros _; eexists; reflexivity).
  - intros [Hx|[Hx|Hx]]; [congruence| |contradiction].
    exfalso. exact (Qlt_not_le _ _ Hlt Hx).
  - intros [Hx|[Hx|Hx]]; [congruence| |contradiction].
    exfalso. exact (Qlt_not_le _ _ Hlt Hx).
Qed.

(** What one turn does once the chunk has been received and dispatched. *)
Lemma parse_step_received (audio_time : Q) (self : BluetoothAudio) (notice : bool)
      (t : tick) (c : byte) (d : bytes) :
  rx t = Return (c :: d) ->
  decode_utf8 (c :: d) = Return tt ->
  parse_step audio_time (self, notice) t =
  (st' <~ dispatch self notice t (c :: d) ;;
   grace (fst st') (snd st') audio_time t).
Proof.
  intros Hrx Hdec. unfold parse_step, read_at. rewrite Hrx, Hdec. cbn [bind].
  unfold bind_act at 1. cbn [app].
  destruct (st' <~ dispatch self notice t (c :: d);; grace (fst st') (snd st') audio_time t).
  reflexivity.
Qed.

Lemma sent_bytes_app (tr1 tr2 : list event) :
  sent_bytes (tr1 ++ tr2) = sent_bytes tr1 ++ sent_bytes tr2.
Proof.
  induction tr1 as [|ev tr1 IH]; [reflexivity|].
  destruct ev; cbn [app sent_bytes]; rewrite ?IH, ?app_assoc; reflexivity.
Qed.

Lemma then_grace (tr : list event) (st : BluetoothAudio * bool) (audio_time : Q)
      (t : tick) :
  exists trg r,
    (st' <~ (tr, Return st) ;; grace (fst st') (snd st') audio_time t)
    = (tr ++ trg, r)
    /\ sent_bytes trg = []
    /\ (audio (fst st) <> None \/ (now t <= audio_time)%Q \/ sco_quiet (sco_grace t) ->
        exists res, r = Return res).
Proof.
  destruct (grace_cases (fst st) (snd st) audio_time t) as (Hs & Hr).
  cbn [bind_act].
  destruct (grace (fst st) (snd st) audio_time t) as [trg r]. cbn [fst snd] in *.
  eexists _, _; split; [reflexivity|]. split; assumption.
Qed.

Ltac after_grace tr st audio_time t :=
  let trg := fresh "trg" in
  let rg := fresh "rg" in
  let E := fresh "E" in
  let Hs := fresh "Hs" in
  let Hret := fresh "Hret" in
  destruct (then_grace tr st audio_time t) as (trg & rg & E & Hs & Hret);
  cbn [app fst] in E, Hret.

(** C4, as the code has it.  For a received chunk that decodes and a
    control socket that accepts every frame, the turn writes: for a chunk
    equal to [AT+CIND?\r], exactly [\r\n+CIND: 1,0\r\n\r\nOK\r\n]; for a
    chunk that contains [AT+CMER=] and does not contain [AT+BRSF=], exactly
    [\r\nOK\r\n], followed at once by an audio connect attempt; for a
    non-empty chunk that matches no entry of the table, exactly
    [\r\nERROR\r\n].  The turn does not raise, and the session continues, as
    long as nothing escapes the audio connects it makes: the one of
    [AT+CMER], and the one of the grace period when no audio session exists
    and the grace period has run out. *)
Theorem at_dispatch_table (audio_time : Q) (self : BluetoothAudio) (notice : bool)
        (t : tick) (data : bytes) :
  rx t = Return data ->
  (forall d, tx_ok t d = true) ->
  decode_utf8 data = Return tt ->
  let r := parse_step audio_time (self, notice) t in
  (data = AT_CIND_READ ->
   sent_bytes (fst r) = frame RESP_CIND_READ ++ frame (b "OK"))
  /\ (bytes_in AT_CMER data = true -> bytes_in AT_BRSF data = false ->
      exists tr', fst r = SendService (frame (b "OK")) :: ConnectAudio :: tr'
                  /\ sent_bytes tr' = [])
  /\ (data <> [] ->
      bytes_in AT_BRSF data = false -> bytes_eqb AT_CIND_TEST data = false ->
      bytes_eqb AT_CIND_READ data = false -> bytes_in AT_CMER data = false ->
      bytes_eqb AT_CHLD_TEST data = false ->
      sent_bytes (fst r) = frame (b "ERROR"))
  /\ (sco_quiet (sco_cmer t) ->
      audio self <> None \/ (now t <= audio_time)%Q \/ sco_quiet (sco_grace t) ->
      exists st', snd r = Return st').
Proof.
  intros Hrx Htx Hdec r. subst r.
  destruct data as [|c d].
  - unfold parse_step, read_at. rewrite Hrx, Hdec. cbn [bind].
    after_grace (@nil event) (self, notice) audio_time t.
    cbn [bind_act ret fst snd app] in *. rewrite E. cbn [fst snd].
    split; [discriminate|]. split; [discriminate|]. split; [congruence|].
    intros _. exact Hret.
  - rewrite (parse_step_received audio_time self notice t c d Hrx Hdec).
    unfold dispatch, send_ok, send_error, send_at, send.
    rewrite !Htx.
    destruct (bytes_in AT_BRSF (c :: d)) eqn:E1;
      [|destruct (bytes_eqb AT_CIND_TEST (c :: d)) eqn:E2;
        [|destruct (bytes_eqb AT_CIND_READ (c :: d)) eqn:E3;
          [|destruct (bytes_in AT_CMER (c :: d)) eqn:E4;
            [|destruct (bytes_eqb AT_CHLD_TEST (c :: d)) eqn:E5]]]].
    + after_grace [SendService (CRLF ++ RESP_BRSF ++ CRLF);
                   SendService (CRLF ++ b "OK" ++ CRLF)] (self, notice) audio_time t.
      cbn [bind_act emit ret app] in *. rewrite E. cbn [fst snd].
      split; [intros E'; rewrite E' in E1; discriminate|].
      split; [intros; discriminate|]. split; [intros; discriminate|].
      intros _. exact Hret.
    + apply bytes_eqb_eq in E2.
      after_grace [SendService (CRLF ++ RESP_CIND_TEST ++ CRLF);
                   SendService (CRLF ++ b "OK" ++ CRLF)] (self, notice) audio_time t.
      cbn [bind_act emit ret app] in *. rewrite E. cbn [fst snd].
      split; [intros E'; rewrite E' in E2; discriminate|].
      split; [intros E' _; rewrite <- E2 in E'; discriminate|].
      split; [intros; discriminate|].
      intros _. exact Hret.
    + apply bytes_eqb_eq in E3.
      after_grace [SendService (CRLF ++ RESP_CIND_READ ++ CRLF);
                   SendService (CRLF ++ b "OK" ++ CRLF)] (self, notice) audio_time t.
      cbn [bind_act emit ret app] in *. rewrite E. cbn [fst snd].
      split; [intros _; cbn [sent_bytes]; rewrite Hs, app_nil_r; reflexivity|].
      split; [intros E' _; rewrite <- E3 in E'; discriminate|].
      split; [intros; discriminate|].
      intros _. exact Hret.
    + destruct (connect_audio_cases self (sco_cmer t))
        as [(mtu & Hm & ->)|[(Hm & ->)|(Hm & Hq & e & ->)]].
      * after_grace [SendService (CRLF ++ b "OK" ++ CRLF); ConnectAudio]
                    (set_audio self (Some SCO_socket) (mtu - SCO_HEADERS_SIZE), false)
                    audio_time t.
        cbn [bind_act emit ret app] in *. rewrite E. cbn [fst snd].
        split; [intros E'; rewrite E', bytes_eqb_refl in E3; discriminate|].
        split; [intros _ _; eexists; split; [reflexivity|assumption]|].
        split; [intros; discriminate|].
        intros _ _. apply Hret. left. discriminate.
      * after_grace [SendService (CRLF ++ b "OK" ++ CRLF); ConnectAudio; CloseAudio]
                    (self, false) audio_time t.
        cbn [bind_act emit ret app] in *. rewrite E. cbn [fst snd].
        split; [intros E'; rewrite E', bytes_eqb_refl in E3; discriminate|].
        split; [intros _ _; eexists; split; [reflexivity|assumption]|].
        split; [intros; discriminate|].
        intros _. exact Hret.
      * cbn [bind_act emit ret app fst snd].
        split; [intros E'; rewrite E', bytes_eqb_refl in E3; discriminate|].
        split; [intros _ _; exists []; split; reflexivity|].
        split; [intros; discriminate|].
        intros Hq'. contradiction.
    + apply bytes_eqb_eq in E5.
      after_grace [SendService (CRLF ++ RESP_CHLD ++ CRLF);
                   SendService (CRLF ++ b "OK" ++ CRLF)] (self, notice) audio_time t.
      cbn [bind_act emit ret app] in *. rewrite E. cbn [fst snd].
      split; [intros E'; rewrite E', bytes_eqb_refl in E3; discriminate|].
      split; [intros; discriminate|]. split; [intros; discriminate|].
      intros _. exact Hret.
    + after_grace [SendService (CRLF ++ b "ERROR" ++ CRLF)] (self, notice) audio_time t.
      cbn [bind_act emit ret app] in *. rewrite E. cbn [fst snd].
      split; [intros E'; rewrite E', bytes_eqb_refl in E3; discriminate|].
      split; [intros; discriminate|].
      split; [intros _ _ _ _ _ _; cbn [sent_bytes]; rewrite Hs, app_nil_r; reflexivity|].
      intros _. exact Hret.
Qed.

Lemma at_dispatch_table_witness :
  let r := parse_step 10 (linked, true) (tick_received AT_CIND_READ 0) in
  sent_bytes (fst r) = frame RESP_CIND_READ ++ frame (b "OK")
  /\ exists st', snd r = Return st'.
Proof.
  destruct (at_dispatch_table 10 linked true (tick_received AT_CIND_READ 0)
                              AT_CIND_READ eq_refl (fun _ => eq_refl) eq_refl)
    as (Hcind & _ & _ & Hret).
  split; [exact (Hcind eq_refl)|].
  apply Hret; [exact I|]. right; left. discriminate.
Defined.

Example at_cind_read_bytes :
  sent_bytes (fst (parse_step 10 (linked, true) (tick_received AT_CIND_READ 0)))
  = [x0d; x0a] ++ b "+CIND: 1,0" ++ [x0d; x0a; x0d; x0a] ++ b "OK" ++ [x0d; x0a].
Proof. reflexivity. Qed.

Example at_cmer_bytes :
  fst (parse_step 10 (linked, true)
                  (tick_received (b "AT+CMER=3,0,0,1" ++ CR) 0))
  = [SendService ([x0d; x0a] ++ b "OK" ++ [x0d; x0a]); ConnectAudio; CloseAudio].
Proof. reflexivity. Qed.

Example at_unknown_bytes :
  fst (parse_step 10 (linked, true) (tick_received (b "AT+FOO" ++ CR) 0))
  = [SendService ([x0d; x0a] ++ b "ERROR" ++ [x0d; x0a])].
Proof. reflexivity. Qed.

(** An exception of the audio socket other than a refused connect ends the
    turn of an [AT+CMER] chunk after its [OK]. *)
Example at_cmer_connect_escapes :
  parse_step 10 (linked, true)
             (mkTick (Return (b "AT+CMER=3,0,0,1" ++ CR)) (fun _ => true) 0
                     (mkSco (Return tt) (Return tt)
                            (Raise (BluetoothError "Transport endpoint is not connected")))
                     refused)
  = ([SendService (frame (b "OK")); ConnectAudio],
     Raise (BluetoothError "Transport endpoint is not connected")).
Proof. reflexivity. Qed.

(** C4 as stated fails on the code: a chunk that carries [AT+BRSF=] in
    front of [AT+CMER=] contains [AT+CMER=], yet it is answered as
    [AT+BRSF=] and no audio connect is attempted. *)
Lemma cmer_behind_brsf :
  let data := b "AT+BRSF=0" ++ CR ++ b "AT+CMER=3,0,0,1" ++ CR in
  let r := parse_step 10 (linked, true) (tick_received data 0) in
  bytes_in AT_CMER data = true
  /\ fst r = [SendService (frame RESP_BRSF); SendService (frame (b "OK"))]
  /\ sent_bytes (fst r) <> frame (b "OK")
  /\ count is_connect_audio (fst r) = 0%nat.
Proof. cbv zeta. repeat split. discriminate. Qed.

(** ** Whole sessions *)

Lemma count_app (p : event -> bool) (tr1 tr2 : list event) :
  count p (tr1 ++ tr2) = (count p tr1 + count p tr2)%nat.
Proof. unfold count. rewrite filter_app, length_app. reflexivity. Qed.

Ltac split_tests :=
  repeat (cbv beta iota zeta delta [bind_act bind emit throw ret app fst snd];
          match goal with
          | |- context [if ?c then _ else _] => destruct c eqn:?
          end).

Lemma kept_refl (self : BluetoothAudio) : kept self self.
Proof. repeat split; auto. Qed.

Lemma kept_trans (s1 s2 s3 : BluetoothAudio) : kept s1 s2 -> kept s2 s3 -> kept s1 s3.
Proof.
  intros (H1 & H2 & H3 & H4) (K1 & K2 & K3 & K4).
  repeat split; try congruence. auto.
Qed.

Lemma kept_set_audio (self : BluetoothAudio) (p : Z) :
  kept self (set_audio self (Some SCO_socket) p).
Proof. repeat split. intros _. discriminate. Qed.

(** What the dispatch chain can do: it writes frames and may connect the
    audio link; it emits no warning and never sets the notice flag. *)
Lemma dispatch_facts (self : BluetoothAudio) (n : bool) (t : tick) (data : bytes) :
  let r := dispatch self n t data in
  Forall link_event (fst r)
  /\ count is_warning (fst r) = 0%nat
  /\ forall self' n', snd r = Return (self', n') ->
       (budget n' <= budget n)%nat
       /\ (forall ticks, In t ticks ->
           payload_from_mtu ticks self -> payload_from_mtu ticks self')
       /\ kept self self'.
Proof.
  unfold dispatch, send_ok, send_error, send_at, send.
  destruct (connect_audio_cases self (sco_cmer t))
    as [(mtu & Hm & ->)|[(Hm & ->)|(Hm & Hq & e & ->)]];
    split_tests; cbv beta iota zeta delta [bind_act bind emit throw ret app fst snd];
    (split; [repeat (exact I || constructor)|]);
    (split; [reflexivity|]);
    intros self' n' H; inversion H; subst; clear H;
    (split; [first [apply le_n | apply Nat.le_0_l]|]);
    (split; [|first [apply kept_refl | apply kept_set_audio]]);
    intros ticks Hin Hp; try exact Hp.
  right. exists t, mtu. split; [exact Hin|]. split; [left; exact Hm|reflexivity].
Qed.

(** What the grace-period block can do: it warns within the budget and
    clears the flag when it acts. *)
Lemma grace_facts (self : BluetoothAudio) (n : bool) (audio_time : Q) (t : tick) :
  let r := grace self n audio_time t in
  Forall link_event (fst r)
  /\ match snd r with
     | Return (self', n') =>
         (count is_warning (fst r) + budget n' <= budget n)%nat
         /\ (forall ticks, In t ticks ->
             payload_from_mtu ticks self -> payload_from_mtu ticks self')
         /\ kept self self'
     | Raise _ => (count is_warning (fst r) <= budget n)%nat
     end.
Proof.
  unfold grace.
  destruct (audio self) eqn:Ha.
  { cbn. split; [constructor|]. repeat split; auto; congruence. }
  destruct (Qlt_le_dec audio_time (now t)).
  2:{ cbn. split; [constructor|]. repeat split; auto. }
  destruct (connect_audio_cases self (sco_grace t))
    as [(mtu & Hm & ->)|[(Hm & ->)|(Hm & Hq & e & ->)]];
    destruct n; cbn;
    (split; [repeat (exact I || constructor)|]);
    try (cbn; lia);
    (split; [cbn; lia|]);
    (split; [|first [apply kept_refl | apply kept_set_audio]]);
    intros ticks Hin Hp; try exact Hp;
    right; exists t, mtu; (split; [exact Hin|]); (split; [right; exact Hm|reflexivity]).
Qed.

Lemma bind_act_ret_l {A B : Type} (a : A) (k : A -> act B) :
  bind_act ([], Return a) k = k a.
Proof. cbn. destruct (k a). reflexivity. Qed.

Lemma bind_act_return {A B : Type} (m : act A) (k : A -> act B) (tr : list event) (y : B) :
  bind_act m k = (tr, Return y) ->
  exists tr1 x tr2, m = (tr1, Return x) /\ k x = (tr2, Return y) /\ tr = tr1 ++ tr2.
Proof.
  destruct m as [tr1 [x|e]]; cbn [bind_act]; [|discriminate].
  destruct (k x) as [tr2 r] eqn:E. intros H. injection H as <- ->.
  exists tr1, x, tr2. repeat split. exact E.
Qed.

Lemma read_at_cases (r : outcome bytes) :
  (exists d, read_at r = Return (Some d))
  \/ read_at r = Return None
  \/ exists e, read_at r = Raise e.
Proof.
  unfold read_at. destruct r as [d|[msg| | | | | |]].
  - destruct (decode_utf8 d) as [[]|e]; [left|right; right]; eexists; reflexivity.
  - destruct (String.eqb msg "timed out"); [right; left; reflexivity|].
    right; right; eexists; reflexivity.
  - right; right; eexists; reflexivity.
  - right; right; eexists; reflexivity.
  - right; right; eexists; reflexivity.
  - right; right; eexists; reflexivity.
  - right; right; eexists; reflexivity.
  - right; right; eexists; reflexivity.
Qed.

(** What the turn has done when it reaches the grace-period block. *)
Lemma parse_step_split (audio_time : Q) (self : BluetoothAudio) (n : bool) (t : tick) :
  (exists e, parse_step audio_time (self, n) t = ([], Raise e))
  \/ exists trd rd,
       parse_step audio_time (self, n) t
       = (st' <~ (trd, rd) ;; grace (fst st') (snd st') audio_time t)
       /\ Forall link_event trd
       /\ count is_warning trd = 0%nat
       /\ forall s1 n1, rd = Return (s1, n1) ->
            (budget n1 <= budget n)%nat
            /\ (forall ticks, In t ticks ->
                payload_from_mtu ticks self -> payload_from_mtu ticks s1)
            /\ kept self s1.
Proof.
  unfold parse_step.
  assert (exists trd rd,
             ([], Return (self, n)) = (trd, rd)
             /\ Forall link_event trd
             /\ count is_warning trd = 0%nat
             /\ forall s1 n1, rd = Return (s1, n1) ->
                  (budget n1 <= budget n)%nat
                  /\ (forall ticks, In t ticks ->
                      payload_from_mtu ticks self -> payload_from_mtu ticks s1)
                  /\ kept self s1) as Hidle.
  { eexists _, _. split; [reflexivity|]. split; [constructor|]. split; [reflexivity|].
    intros s1 n1 H. injection H as <- <-.
    split; [apply le_n|]. split; [auto|apply kept_refl]. }
  destruct (read_at_cases (rx t)) as [(d & ->)|[->|(e & ->)]].
  - right. rewrite bind_act_ret_l. destruct d as [|c d].
    + destruct Hidle as (trd & rd & E & H). exists trd, rd.
      unfold ret. rewrite E. split; [reflexivity|exact H].
    + pose proof (dispatch_facts self n t (c :: d)) as (Hl & Hw & Hr).
      destruct (dispatch self n t (c :: d)) as [trd rd].
      exists trd, rd. split; [reflexivity|]. repeat split; try assumption;
        apply (Hr s1 n1); assumption.
  - right. rewrite bind_act_ret_l.
    destruct Hidle as (trd & rd & E & H). exists trd, rd.
    unfold ret. rewrite E. split; [reflexivity|exact H].
  - left. exists e. reflexivity.
Qed.

(** One turn of the AT loop. *)
Lemma parse_step_facts (audio_time : Q) (self : BluetoothAudio) (n : bool) (t : tick) :
  let r := parse_step audio_time (self, n) t in
  Forall link_event (fst r)
  /\ match snd r with
     | Return (self', n') =>
         (count is_warning (fst r) + budget n' <= budget n)%nat
         /\ (forall ticks, In t ticks ->
             payload_from_mtu ticks self -> payload_from_mtu ticks self')
         /\ kept self self'
     | Raise _ => (count is_warning (fst r) <= budget n)%nat
     end.
Proof.
  destruct (parse_step_split audio_time self n t)
    as [(e & ->)|(trd & rd & -> & Hl & Hw & Hr)].
  { cbn. split; [constructor|lia]. }
  destruct rd as [[s1 n1]|e]; cbn [bind_act].
  2:{ cbn [fst snd]. split; [assumption|rewrite Hw; apply Nat.le_0_l]. }
  destruct (Hr s1 n1 eq_refl) as (Hb & Hp & Hk).
  pose proof (grace_facts s1 n1 audio_time t) as (Hgl & Hg).
  destruct (grace (fst (s1, n1)) (snd (s1, n1)) audio_time t) as [trg rg] eqn:Eg.
  cbn [fst snd] in Eg. rewrite Eg in Hgl, Hg. cbn [fst snd] in *.
  split; [apply Forall_app; split; assumption|].
  rewrite count_app, Hw. cbn [plus].
  destruct rg as [[s2 n2]|e]; [|lia].
  destruct Hg as (Hc & Hp' & Hk').
  split; [lia|]. split; [|exact (kept_trans _ _ _ Hk Hk')].
  intros ticks Hin Hpay. apply (Hp' ticks Hin). apply (Hp ticks Hin Hpay).
Qed.

(** All the turns of the AT loop. *)
Lemma parse_loop_invariant (audio_time : Q) (all : list tick) (ticks : list tick) :
  forall (self : BluetoothAudio) (n : bool),
    (forall t, In t ticks -> In t all) ->
    let r := parse_loop audio_time (self, n) ticks in
    Forall link_event (fst (fst r))
    /\ (count is_warning (fst (fst r)) <= budget n)%nat
    /\ (payload_from_mtu all self -> payload_from_mtu all (fst (snd (fst r))))
    /\ kept self (fst (snd (fst r))).
Proof.
  induction ticks as [|t rest IH]; intros self n Hsub.
  - cbn. repeat split; [constructor|lia|auto..].
  - cbn [parse_loop].
    destruct (parse_step_facts audio_time self n t) as (Hl & Hr).
    destruct (parse_step audio_time (self, n) t) as [tr [[self1 n1]|e]];
      cbn [fst snd] in *.
    + destruct Hr as (Hb & Hp & Hk).
      destruct (IH self1 n1 (fun x Hx => Hsub x (or_intror Hx))) as (Hl' & Hw' & Hp' & Hk').
      destruct (parse_loop audio_time (self1, n1) rest) as [[tr' st''] r'].
      cbn [fst snd] in *.
      split; [apply Forall_app; split; assumption|].
      rewrite count_app. split; [lia|].
      split; [|exact (kept_trans _ _ _ Hk Hk')].
      intros Hpay. apply Hp'. apply (Hp all (Hsub t (or_introl eq_refl)) Hpay).
    + repeat split; [assumption|lia|auto..].
Qed.

Lemma parse_loop_facts (audio_time : Q) (ticks : list tick) :
  forall (self : BluetoothAudio) (n : bool),
    let r := parse_loop audio_time (self, n) ticks in
    Forall link_event (fst (fst r))
    /\ (count is_warning (fst (fst r)) <= budget n)%nat
    /\ (payload_from_mtu ticks self -> payload_from_mtu ticks (fst (snd (fst r)))).
Proof.
  intros self n.
  destruct (parse_loop_invariant audio_time ticks ticks self n (fun t H => H))
    as (H1 & H2 & H3 & _).
  repeat split; assumption.
Qed.

Lemma parse_loop_kept (audio_time : Q) (ticks : list tick) :
  forall (self : BluetoothAudio) (n : bool),
    kept self (fst (snd (fst (parse_loop audio_time (self, n) ticks)))).
Proof.
  intros self n.
  destruct (parse_loop_invariant audio_time ticks ticks self n (fun t H => H))
    as (_ & _ & _ & H).
  exact H.
Qed.

(** A stalled turn: the warning if it is still due, then one connect attempt. *)
Lemma parse_step_stalled (audio_time : Q) (self : BluetoothAudio) (n : bool) (t : tick) :
  audio self = None ->
  stalled audio_time t ->
  parse_step audio_time (self, n) t =
  ((if n then [Warning "Service connection timed out, try audio anyway..."] else [])
     ++ [ConnectAudio; CloseAudio],
   Return (self, false)).
Proof.
  intros Ha (Hrx & Hlt & msg & Ho & Hc).
  unfold parse_step, read_at. rewrite Hrx.
  change (String.eqb "timed out" "timed out") with true. cbv iota.
  rewrite bind_act_ret_l. unfold ret at 1. rewrite bind_act_ret_l. cbn [fst snd].
  unfold grace, connect_audio. rewrite Ha, Ho, Hc.
  destruct (Qlt_le_dec audio_time (now t)) as [_|Hle].
  - destruct n; reflexivity.
  - exfalso. exact (Qlt_not_le _ _ Hlt Hle).
Qed.

Lemma parse_loop_stalled (audio_time : Q) (ticks : list tick) :
  forall (self : BluetoothAudio) (n : bool),
    audio self = None ->
    Forall (stalled audio_time) ticks ->
    exists tr n',
      parse_loop audio_time (self, n) ticks = (tr, (self, n'), Return tt)
      /\ count is_connect_audio tr = List.length ticks
      /\ count is_warning tr = Nat.min (budget n) (List.length ticks).
Proof.
  induction ticks as [|t rest IH]; intros self n Ha Hst.
  - exists [], n. repeat split. destruct n; reflexivity.
  - inversion Hst as [|? ? Ht Hrest]; subst.
    cbn [parse_loop]. rewrite (parse_step_stalled audio_time self n t Ha Ht).
    destruct (IH self false Ha Hrest) as (tr & n' & -> & Hc & Hw).
    eexists _, n'. split; [reflexivity|].
    rewrite !count_app, Hc, Hw. cbn [List.length].
    destruct n; cbn; split; lia.
Qed.

(** The grace-period block after the deadline: if it returns and there is
    still no audio session, the last thing it did is a connect attempt that
    was refused. *)
Lemma grace_late (self : BluetoothAudio) (n : bool) (audio_time : Q) (t : tick)
      (self' : BluetoothAudio) (n' : bool) :
  snd (grace self n audio_time t) = Return (self', n') ->
  audio self' = None ->
  (audio_time < now t)%Q ->
  exists w, fst (grace self n audio_time t) = w ++ [ConnectAudio; CloseAudio].
Proof.
  unfold grace. intros Hr Hnone Hlate.
  destruct (audio self) eqn:Ha.
  { cbn in Hr. injection Hr as <- <-. congruence. }
  destruct (Qlt_le_dec audio_time (now t)) as [_|Hle];
    [|exfalso; exact (Qlt_not_le _ _ Hlate Hle)].
  destruct (connect_audio_cases self (sco_grace t))
    as [(mtu & Hm & E)|[(Hm & E)|(Hm & Hq & e & E)]];
    rewrite E in *; destruct n; cbn in Hr |- *; try discriminate.
  - injection Hr as <- <-. discriminate.
  - injection Hr as <- <-. discriminate.
  - eexists [_]. reflexivity.
  - exists []. reflexivity.
Qed.

Lemma parse_step_late (audio_time : Q) (st : BluetoothAudio * bool) (t : tick)
      (st' : BluetoothAudio * bool) :
  snd (parse_step audio_time st t) = Return st' ->
  audio (fst st') = None ->
  (audio_time < now t)%Q ->
  exists tr0, fst (parse_step audio_time st t) = tr0 ++ [ConnectAudio; CloseAudio].
Proof.
  destruct st as [self n], st' as [self' n']. cbn [fst].
  destruct (parse_step_split audio_time self n t)
    as [(e & ->)|(trd & rd & -> & _)]; [discriminate|].
  destruct rd as [[s1 n1]|e]; cbn [bind_act]; [|discriminate].
  pose proof (grace_late s1 n1 audio_time t self' n') as Hg.
  destruct (grace (fst (s1, n1)) (snd (s1, n1)) audio_time t) as [trg rg] eqn:Eg.
  cbn [fst snd] in Eg. rewrite Eg in Hg. cbn [fst snd] in *.
  intros -> Hnone Hlate.
  destruct (Hg eq_refl Hnone Hlate) as (w & ->).
  exists (trd ++ w). rewrite app_assoc. reflexivity.
Qed.

Lemma count_connect_tail (tr0 : list event) :
  (1 <= count is_connect_audio (tr0 ++ [ConnectAudio; CloseAudio]))%nat.
Proof. rewrite count_app. cbn. lia. Qed.

Lemma parse_loop_late (audio_time : Q) (ticks : list tick) :
  forall (self : BluetoothAudio) (n : bool),
    snd (parse_loop audio_time (self, n) ticks) = Return tt ->
    audio (fst (snd (fst (parse_loop audio_time (self, n) ticks)))) = None ->
    (List.length (filter (past_deadline audio_time) ticks)
     <= count is_connect_audio (fst (fst (parse_loop audio_time (self, n) ticks))))%nat.
Proof.
  induction ticks as [|t rest IH]; intros self n; [cbn; lia|].
  cbn [parse_loop filter].
  pose proof (parse_step_late audio_time (self, n) t) as Hlate.
  destruct (parse_step audio_time (self, n) t) as [tr [[s1 n1]|e]];
    [|cbn; discriminate].
  specialize (IH s1 n1).
  pose proof (parse_loop_kept audio_time rest s1 n1) as (_ & _ & _ & Hk).
  destruct (parse_loop audio_time (s1, n1) rest) as [[tr' st''] r'].
  cbn [fst snd] in *. intros -> Hnone.
  specialize (IH eq_refl Hnone).
  assert (audio s1 = None) as Hs1.
  { destruct (audio s1) eqn:E; [|reflexivity]. exfalso. apply Hk; [discriminate|assumption]. }
  rewrite count_app. unfold past_deadline at 1.
  destruct (Qlt_le_dec audio_time (now t)) as [Hlt|_]; [|lia].
  destruct (Hlate (s1, n1) eq_refl Hs1 Hlt) as (tr0 & ->).
  pose proof (count_connect_tail tr0). cbn [List.length]. lia.
Qed.

(** C6, as the code has it.  In one control session the warning is emitted
    at most once, whatever happens.  The proactive audio connect, however,
    is attempted in every turn of the loop that ends with no audio session
    after the grace period has run out, whether or not the turn received a
    command first: such a turn ends with a connect attempt that was refused.
    So a session that runs through its turns without getting an audio
    session makes at least as many attempts as it has turns past the
    deadline; and when every turn is past the deadline, receives nothing and
    has its connect refused, exactly as many attempts as turns. *)
Theorem grace_connect_every_turn (self : BluetoothAudio) (start : Q) (ticks : list tick) :
  let audio_time := (start + HFP_CONNECT_AUDIO_TIMEOUT)%Q in
  let tr := fst (fst (parse_channel self start ticks)) in
  (count is_warning tr <= 1)%nat
  /\ (forall st t st',
         snd (parse_step audio_time st t) = Return st' ->
         audio (fst st') = None ->
         (audio_time < now t)%Q ->
         exists tr0, fst (parse_step audio_time st t) = tr0 ++ [ConnectAudio; CloseAudio])
  /\ (snd (parse_channel self start ticks) = Return tt ->
      is_connected (snd (fst (parse_channel self start ticks))) = false ->
      (List.length (filter (past_deadline audio_time) ticks)
       <= count is_connect_audio tr)%nat)
  /\ (audio self = None ->
      Forall (stalled audio_time) ticks ->
      count is_connect_audio tr = List.length ticks
      /\ count is_warning tr = Nat.min 1 (List.length ticks)).
Proof.
  unfold parse_channel. cbv zeta. split; [|split; [|split]].
  - destruct (parse_loop_facts (start + HFP_CONNECT_AUDIO_TIMEOUT) ticks self true)
      as (_ & Hw & _).
    destruct (parse_loop _ _ ticks) as [[tr st] r]. exact Hw.
  - intros st t st'. apply parse_step_late.
  - pose proof (parse_loop_late (start + HFP_CONNECT_AUDIO_TIMEOUT) ticks self true) as H.
    destruct (parse_loop _ _ ticks) as [[tr st] r]. cbn [fst snd] in *.
    intros Hr Hc. apply H; [exact Hr|].
    unfold is_connected in Hc. destruct (audio (fst st)); [discriminate|reflexivity].
  - intros Ha Hst.
    destruct (parse_loop_stalled _ ticks self true Ha Hst) as (tr & n' & -> & Hc & Hw).
    split; assumption.
Qed.

Lemma grace_connect_every_turn_witness :
  let ticks := [tick_timeout 1; tick_received (b "AT+FOO" ++ CR) 11; tick_timeout 12] in
  let tr := fst (fst (parse_channel linked 0 ticks)) in
  (count is_warning tr <= 1)%nat
  /\ (exists tr0, fst (parse_step (0 + HFP_CONNECT_AUDIO_TIMEOUT) (linked, true)
                                  (tick_received (b "AT+FOO" ++ CR) 11))
                  = tr0 ++ [ConnectAudio; CloseAudio])
  /\ (List.length (filter (past_deadline (0 + HFP_CONNECT_AUDIO_TIMEOUT)) ticks)
      <= count is_connect_audio tr)%nat
  /\ count is_connect_audio
           (fst (fst (parse_channel linked 0 [tick_timeout 11; tick_timeout 12])))
     = 2%nat.
Proof.
  cbv zeta.
  destruct (grace_connect_every_turn
              linked 0 [tick_timeout 1; tick_received (b "AT+FOO" ++ CR) 11; tick_timeout 12])
    as (Hw & Hturn & Hlate & _).
  destruct (grace_connect_every_turn linked 0 [tick_timeout 11; tick_timeout 12])
    as (_ & _ & _ & Hall).
  split; [exact Hw|].
  split; [apply (Hturn (linked, true) (tick_received (b "AT+FOO" ++ CR) 11) (linked, false));
          reflexivity|].
  split; [apply Hlate; reflexivity|].
  apply Hall; [reflexivity|].
  repeat (apply Forall_cons;
          [split; [reflexivity|split; [reflexivity|eexists; split; reflexivity]]|]).
  apply Forall_nil.
Defined.

(** C6 as stated fails on the code: two turns after the grace period, with
    no audio session, give two connect attempts (and one warning). *)
Lemma grace_connects_twice :
  let tr := fst (fst (parse_channel linked 0 [tick_timeout 11; tick_timeout 12])) in
  tr = [Warning "Service connection timed out, try audio anyway...";
        ConnectAudio; CloseAudio; ConnectAudio; CloseAudio]
  /\ count is_connect_audio tr = 2%nat
  /\ count is_connect_audio tr <> 1%nat
  /\ count is_warning tr = 1%nat.
Proof. cbv zeta. repeat split. discriminate. Qed.

(** C3, as the code has it.  An audio connect that goes through records
    the session with [sco_payload = mtu - 16], [mtu] being the unsigned
    16-bit value it read back from the socket.  So whenever a control session
    that started without an audio session shows one, its [sco_payload] is
    [mtu - 16] for the MTU read back by an audio connect of one of its
    turns: it lies in [-16..65519] and is positive exactly when that MTU
    exceeds 16. *)
Theorem session_payload_size (self : BluetoothAudio) (start : Q) (ticks : list tick) :
  audio self = None ->
  let self' := snd (fst (parse_channel self start ticks)) in
  (forall (self0 : BluetoothAudio) (s : sco) (mtu : Z),
      sco_mtu s = Some mtu ->
      connect_audio self0 s
      = ([ConnectAudio], Return (set_audio self0 (Some SCO_socket) (mtu - 16))))
  /\ (is_connected self' = true ->
      exists t mtu,
        In t ticks
        /\ (sco_mtu (sco_cmer t) = Some mtu \/ sco_mtu (sco_grace t) = Some mtu)
        /\ sco_payload self' = mtu - 16
        /\ 0 <= mtu <= 65535
        /\ -16 <= sco_payload self' <= 65519
        /\ (0 < sco_payload self' <-> 16 < mtu)).
Proof.
  intros Ha. unfold parse_channel. cbv zeta.
  split; [intros self0 s mtu; apply connect_audio_payload|].
  destruct (parse_loop_facts (start + HFP_CONNECT_AUDIO_TIMEOUT) ticks self true)
    as (_ & _ & Hp).
  destruct (parse_loop _ _ ticks) as [[tr st] r]. cbn [fst snd] in *.
  intros Hc. destruct (Hp (or_introl Ha)) as [Hn|(t & mtu & Hin & Hm & E)].
  - unfold is_connected in Hc. rewrite Hn in Hc. discriminate.
  - exists t, mtu. unfold SCO_HEADERS_SIZE in E.
    assert (0 <= mtu <= 65535) by (destruct Hm as [Hm|Hm]; exact (sco_mtu_range _ _ Hm)).
    repeat split; try assumption; lia.
Qed.

Lemma session_payload_size_witness :
  let self' := snd (fst (parse_channel linked 0 [tick_cmer x40 x00])) in
  exists t mtu,
    In t [tick_cmer x40 x00]
    /\ (sco_mtu (sco_cmer t) = Some mtu \/ sco_mtu (sco_grace t) = Some mtu)
    /\ sco_payload self' = mtu - 16
    /\ 0 <= mtu <= 65535
    /\ -16 <= sco_payload self' <= 65519
    /\ (0 < sco_payload self' <-> 16 < mtu).
Proof.
  apply (session_payload_size linked 0 [tick_cmer x40 x00]); reflexivity.
Defined.

Example session_payload_48 :
  let self' := snd (fst (parse_channel linked 0 [tick_cmer x40 x00])) in
  is_connected self' = true /\ sco_payload self' = 48.
Proof. split; reflexivity. Qed.

(** C3 as stated fails on the code: a negotiated MTU of 16 leaves an audio
    session whose payload size is 0. *)
Lemma session_with_zero_payload :
  let self' := snd (fst (parse_channel linked 0 [tick_cmer x10 x00])) in
  unpack_H x10 x00 = 16
  /\ is_connected self' = true
  /\ sco_payload self' = 0
  /\ ~ 0 < sco_payload self'.
Proof. cbv zeta. repeat split. cbn. lia. Qed.

(** ** Supervisor *)







Example supervisor_skips_channel_zero :
  worker_iteration init (mkCycle [mkService [HANDSFREE_CLASS] 0] true 0 [])
  = ([FindService; Sleep HFP_TIMEOUT], Return (set_channel init (Some 0))).
Proof. reflexivity. Qed.

Example supervisor_connects_channel_seven :
  fst (worker_iteration init (mkCycle [mkService [HANDSFREE_CLASS] 7] false 0 []))
  = [FindService; ConnectService 7; CloseService;
     Warning "Failed to establish service level connection"; Sleep HFP_TIMEOUT].
Proof. reflexivity. Qed.

(** * Further properties *)

(** ** Conversion round trip and the loopback of [main] *)

Lemma downsample_up4 (x : byte) :
  pack_b (py_round (truediv (unpack_h x00 x + unpack_h x00 x) 512)) = Return [x].
Proof. destruct x; reflexivity. Qed.

Lemma downsample_flat_map_up4 (data : bytes) :
  downsample (flat_map up4 data) = Return data.
Proof.
  induction data as [|x data IH]; [reflexivity|].
  cbn [flat_map up4 app]. rewrite downsample_group, downsample_up4, IH.
  reflexivity.
Qed.

(** X1.  Upsampling then downsampling gives the input back: the buffer that
    [read] returns in the extended format is always accepted by the
    conversion of [write], and converts to the very bytes received. *)
Theorem downsample_upsample (data : bytes) :
  exists snd : bytes, upsample data = Return snd /\ downsample snd = Return data.
Proof.
  exists (flat_map up4 data). split.
  - apply upsample_flat_map.
  - apply downsample_flat_map_up4.
Qed.

(** X2.  One turn of the loopback in [main]: with an audio session, whatever
    non-empty bytes the audio socket delivers are sent back exactly as a
    native-format [write] of those bytes would send them; no conversion
    error can occur. *)
Theorem loopback_turn_echo (self : BluetoothAudio) (s : socket) (c : byte) (d : bytes)
        (tx : list (outcome Z)) :
  audio self = Some s ->
  loopback_turn self (Return (c :: d)) tx
  = (fst (write self (c :: d) AUDIO_8KHZ_SIGNED_8BIT_MONO tx),
     option_map (fun r => _ <- r ;; Return tt)
                (snd (write self (c :: d) AUDIO_8KHZ_SIGNED_8BIT_MONO tx))).
Proof.
  intros Ha. unfold loopback_turn, read. rewrite Ha. cbn [bind].
  change (AUDIO_16KHZ_SIGNED_16BIT_LE_MONO =? AUDIO_8KHZ_SIGNED_8BIT_MONO) with false.
  cbv iota. rewrite upsample_flat_map. cbn [bind except_bluetooth flat_map up4 app].
  unfold write. rewrite Ha.
  change (AUDIO_16KHZ_SIGNED_16BIT_LE_MONO =? AUDIO_8KHZ_SIGNED_8BIT_MONO) with false.
  change (AUDIO_8KHZ_SIGNED_8BIT_MONO =? AUDIO_8KHZ_SIGNED_8BIT_MONO) with true.
  cbv iota.
  change (x00 :: c :: x00 :: c :: flat_map up4 d) with (flat_map up4 (c :: d)).
  rewrite downsample_flat_map_up4.
  destruct (send_frames (sco_payload self) (c :: d) 0 tx) as [tr res].
  reflexivity.
Qed.

Lemma loopback_turn_echo_witness :
  loopback_turn (set_audio init (Some SCO_socket) 4) (Return [x01; xff]) [Return 4]
  = (fst (write (set_audio init (Some SCO_socket) 4) [x01; xff]
                AUDIO_8KHZ_SIGNED_8BIT_MONO [Return 4]),
     option_map (fun r => _ <- r ;; Return tt)
                (snd (write (set_audio init (Some SCO_socket) 4) [x01; xff]
                            AUDIO_8KHZ_SIGNED_8BIT_MONO [Return 4]))).
Proof.
  apply (loopback_turn_echo (set_audio init (Some SCO_socket) 4) SCO_socket).
  reflexivity.
Defined.

(** ** Framing in [write] *)

Lemma len_nonneg {A : Type} (l : list A) : 0 <= len l.
Proof. unfold len. lia. Qed.

Lemma len_app {A : Type} (l1 l2 : list A) : len (l1 ++ l2) = len l1 + len l2.
Proof. unfold len. rewrite length_app. lia. Qed.

Lemma len_py_repeat {A : Type} (x : A) (n : Z) : len (py_repeat x n) = Z.max 0 n.
Proof. unfold len, py_repeat. rewrite repeat_length. lia. Qed.

(** A slice of width [p] never holds more than [p] elements. *)
Lemma len_py_slice {A : Type} (l : list A) (a p : Z) :
  0 <= p -> len (py_slice l a (a + p)) <= p.
Proof.
  intros Hp. unfold py_slice, slice_bound.
  pose proof (len_nonneg l) as Hl.
  set (lo := if a <? 0 then Z.max (len l + a) 0 else Z.min a (len l)).
  set (hi := if a + p <? 0 then Z.max (len l + (a + p)) 0 else Z.min (a + p) (len l)).
  assert (hi - lo <= p).
  { subst lo hi. destruct (Z.ltb_spec a 0), (Z.ltb_spec (a + p) 0); lia. }
  unfold len. rewrite length_firstn. lia.
Qed.

(** The frame built by one turn of the loop has exactly [payload] bytes. *)
Lemma frame_length (payload : Z) (data : bytes) (sent : Z) :
  0 < payload ->
  let ts := py_slice data sent (sent + payload) in
  len (if len ts <? payload then ts ++ py_repeat x00 (payload - len ts) else ts)
  = payload.
Proof.
  intros Hp ts.
  pose proof (len_py_slice data sent payload ltac:(lia)) as Hle. fold ts in Hle.
  destruct (Z.ltb_spec (len ts) payload).
  - rewrite len_app, len_py_repeat. lia.
  - lia.
Qed.

Lemma send_frames_lengths (payload : Z) (data : bytes) (tx : list (outcome Z)) :
  0 < payload ->
  forall sent,
    Forall (fun f => len f = payload)
           (audio_frames (fst (send_frames payload data sent tx))).
Proof.
  intros Hp. induction tx as [|r tx IH]; intros sent; cbn [send_frames].
  - destruct (sent <? len data); constructor.
  - destruct (sent <? len data); [|constructor].
    destruct r as [n|e]; [|constructor].
    specialize (IH (sent + n)).
    destruct (send_frames payload data (sent + n) tx) as [tr res].
    cbn [fst audio_frames] in *. constructor; [|assumption].
    apply (frame_length payload data sent Hp).
Qed.

(** X3.  Fixed frame size: when the payload size is positive, every frame
    [write] hands to the audio socket has exactly [sco_payload] bytes, in
    either format, whatever the transport answers. *)
Theorem write_frames_fixed_size (self : BluetoothAudio) (data : bytes) (format : Z)
        (tx : list (outcome Z)) :
  0 < sco_payload self ->
  Forall (fun f => len f = sco_payload self)
         (audio_frames (fst (write self data format tx))).
Proof.
  intros Hp. unfold write.
  destruct (audio self); [|constructor].
  destruct (if format =? AUDIO_8KHZ_SIGNED_8BIT_MONO then Return data
            else downsample data) as [d|e]; [|constructor].
  pose proof (send_frames_lengths (sco_payload self) d tx Hp 0) as H.
  destruct (send_frames (sco_payload self) d 0 tx) as [tr res]. exact H.
Qed.

Lemma write_frames_fixed_size_witness :
  Forall (fun f => len f = sco_payload (set_audio init (Some SCO_socket) 4))
         (audio_frames
            (fst (write (set_audio init (Some SCO_socket) 4)
                        [x01; x02; x03; x04; x05; x06] AUDIO_8KHZ_SIGNED_8BIT_MONO
                        [Return 4; Return 4]))).
Proof.
  apply (write_frames_fixed_size (set_audio init (Some SCO_socket) 4)).
  reflexivity.
Defined.

Lemma py_slice_window {A : Type} (pre rest : list A) (p : Z) :
  0 <= p ->
  py_slice (pre ++ rest) (len pre) (len pre + p) = firstn (Z.to_nat p) rest.
Proof.
  intros Hp. unfold py_slice, slice_bound.
  pose proof (len_nonneg pre); pose proof (len_nonneg rest).
  rewrite len_app.
  destruct (Z.ltb_spec (len pre) 0); [lia|].
  destruct (Z.ltb_spec (len pre + p) 0); [lia|].
  rewrite (Z.min_l (len pre)) by lia.
  replace (Z.to_nat (len pre)) with (List.length pre) by (unfold len; lia).
  rewrite skipn_app, skipn_all, Nat.sub_diag. cbn [app skipn].
  destruct (Z.le_ge_cases (len pre + p) (len pre + len rest)).
  - rewrite Z.min_l by lia. f_equal. lia.
  - rewrite Z.min_r by lia.
    replace (Z.to_nat (len pre + len rest - len pre)) with (List.length rest)
      by (unfold len; lia).
    rewrite firstn_all. symmetry. apply firstn_all2. unfold len in *. lia.
Qed.

(** The loop against a transport that takes every frame whole. *)
Lemma send_frames_whole (payload : Z) (m : nat) :
  0 < payload ->
  forall (pre rest : bytes),
    len rest <= Z.of_nat m * payload ->
    exists tr,
      send_frames payload (pre ++ rest) (len pre) (repeat (Return payload) m)
      = (tr, Some (Return tt))
      /\ List.concat (audio_frames tr)
         = rest ++ py_repeat x00 ((- len rest) mod payload).
Proof.
  intros Hp. induction m as [|m IH]; intros pre rest Hm.
  - pose proof (len_nonneg rest).
    assert (rest = []) as -> by (destruct rest; [reflexivity|unfold len in *; cbn in *; lia]).
    exists []. cbn [repeat send_frames]. rewrite app_nil_r, Z.ltb_irrefl.
    split; reflexivity.
  - cbn [repeat send_frames]. rewrite len_app.
    pose proof (len_nonneg rest) as Hr.
    destruct (Z.ltb_spec (len pre) (len pre + len rest)) as [Hlt|Hge].
    2:{ assert (rest = []) as -> by (destruct rest; [reflexivity|unfold len in *; cbn in *; lia]).
        exists []. split; reflexivity. }
    rewrite py_slice_window by lia.
    set (ts := firstn (Z.to_nat payload) rest).
    destruct (Z.le_gt_cases payload (len rest)) as [Hfull|Hshort].
    + assert (len ts = payload) as Hts.
      { unfold ts, len. rewrite length_firstn. unfold len in *. lia. }
      rewrite Hts, Z.ltb_irrefl.
      destruct (IH (pre ++ ts) (skipn (Z.to_nat payload) rest)) as (tr & E & Hc).
      { unfold len. rewrite length_skipn. unfold len in *. lia. }
      rewrite <- app_assoc in E. unfold ts in E at 1. rewrite firstn_skipn in E.
      rewrite len_app, Hts in E. rewrite E.
      exists (SendAudio ts :: tr). split; [reflexivity|].
      cbn [audio_frames List.concat]. rewrite Hc, app_assoc.
      unfold ts. rewrite firstn_skipn. f_equal. f_equal.
      replace (len (skipn (Z.to_nat payload) rest)) with (len rest - payload)
        by (unfold len; rewrite length_skipn; unfold len in *; lia).
      replace (- (len rest - payload)) with (- len rest + 1 * payload) by lia.
      apply Z.mod_add. lia.
    + assert (ts = rest) as Hts.
      { unfold ts. apply firstn_all2. unfold len in *. lia. }
      rewrite Hts. destruct (Z.ltb_spec (len rest) payload); [|lia].
      assert (send_frames payload (pre ++ rest) (len pre + payload)
                          (repeat (Return payload) m)
              = ([], Some (Return tt))) as E.
      { destruct (repeat (Return payload) m); cbn [send_frames];
          rewrite len_app; destruct (Z.ltb_spec (len pre + payload) (len pre + len rest));
          try lia; reflexivity. }
      rewrite E. eexists. split; [reflexivity|].
      cbn [audio_frames List.concat]. rewrite app_nil_r. f_equal. f_equal.
      replace (- len rest) with (payload - len rest + (-1) * payload) by lia.
      rewrite Z.mod_add by lia. symmetry. apply Z.mod_small. lia.
Qed.

(** X4.  Framing against a transport that accepts each frame whole: a
    native-format [write] succeeds, and the frames put on the wire, laid end
    to end, are the data followed by just enough zero bytes to fill the last
    frame. *)
Theorem write_whole_frames (self : BluetoothAudio) (s : socket) (data : bytes) (m : nat) :
  audio self = Some s ->
  0 < sco_payload self ->
  len data <= Z.of_nat m * sco_payload self ->
  exists tr,
    write self data AUDIO_8KHZ_SIGNED_8BIT_MONO (repeat (Return (sco_payload self)) m)
    = (tr, Some (Return true))
    /\ List.concat (audio_frames tr)
       = data ++ py_repeat x00 ((- len data) mod sco_payload self).
Proof.
  intros Ha Hp Hm. unfold write. rewrite Ha.
  change (AUDIO_8KHZ_SIGNED_8BIT_MONO =? AUDIO_8KHZ_SIGNED_8BIT_MONO) with true.
  cbv iota.
  destruct (send_frames_whole (sco_payload self) m Hp [] data Hm) as (tr & E & Hc).
  cbn [app] in E. change (len []) with 0 in E. rewrite E.
  exists tr. split; [reflexivity|exact Hc].
Qed.

Lemma write_whole_frames_witness :
  exists tr,
    write (set_audio init (Some SCO_socket) 48) (repeat x07 40)
          AUDIO_8KHZ_SIGNED_8BIT_MONO
          (repeat (Return (sco_payload (set_audio init (Some SCO_socket) 48))) 1)
    = (tr, Some (Return true))
    /\ List.concat (audio_frames tr)
       = repeat x07 40
         ++ py_repeat x00 ((- len (repeat x07 40))
                           mod sco_payload (set_audio init (Some SCO_socket) 48)).
Proof.
  apply (write_whole_frames (set_audio init (Some SCO_socket) 48) SCO_socket
                            (repeat x07 40) 1).
  - reflexivity.
  - reflexivity.
  - vm_compute. discriminate.
Defined.

Example write_40_of_48 :
  fst (write (set_audio init (Some SCO_socket) 48) (repeat x07 40)
             AUDIO_8KHZ_SIGNED_8BIT_MONO [Return 48])
  = [SendAudio (repeat x07 40 ++ repeat x00 8)].
Proof. reflexivity. Qed.

(** ** Progress of [write] *)

Lemma send_frames_no_progress (payload : Z) (data : bytes) (sent : Z)
      (tx : list (outcome Z)) :
  sent < len data ->
  Forall (fun r => r = Return 0) tx ->
  snd (send_frames payload data sent tx) = None.
Proof.
  intros Hs Htx. induction Htx as [|r tx -> _ IH]; cbn [send_frames];
    destruct (Z.ltb_spec sent (len data)); try lia; [reflexivity|].
  rewrite Z.add_0_r.
  destruct (send_frames payload data sent tx) as [tr res]. exact IH.
Qed.

(** X5.  [write] has no bound on its sending loop: with an audio session and
    some data to send, as long as the transport reports 0 bytes sent the
    call has not returned, however many sends have been made (this is what
    happens with an empty frame, i.e. a payload size of 0). *)
Theorem write_stuck_without_progress (self : BluetoothAudio) (s : socket)
        (c : byte) (d : bytes) (tx : list (outcome Z)) :
  audio self = Some s ->
  Forall (fun r => r = Return 0) tx ->
  snd (write self (c :: d) AUDIO_8KHZ_SIGNED_8BIT_MONO tx) = None
  /\ List.length (audio_frames (fst (write self (c :: d) AUDIO_8KHZ_SIGNED_8BIT_MONO tx)))
     = List.length tx.
Proof.
  intros Ha Htx. unfold write. rewrite Ha.
  change (AUDIO_8KHZ_SIGNED_8BIT_MONO =? AUDIO_8KHZ_SIGNED_8BIT_MONO) with true.
  cbv iota.
  assert (0 < len (c :: d)) as Hl by (unfold len; cbn [List.length]; lia).
  pose proof (send_frames_no_progress (sco_payload self) (c :: d) 0 tx Hl Htx) as Hn.
  assert (List.length (audio_frames (fst (send_frames (sco_payload self) (c :: d) 0 tx)))
          = List.length tx) as Hc.
  { clear Hn. generalize (c :: d) Hl. intros data Hd.
    induction Htx as [|r tx -> _ IH]; cbn [send_frames];
      destruct (Z.ltb_spec 0 (len data)); try lia; [reflexivity|].
    rewrite Z.add_0_r.
    destruct (send_frames (sco_payload self) data 0 tx) as [tr res].
    cbn [fst audio_frames List.length] in *. rewrite IH. reflexivity. }
  destruct (send_frames (sco_payload self) (c :: d) 0 tx) as [tr res].
  cbn [fst snd] in *. subst res. split; [reflexivity|exact Hc].
Qed.

Lemma write_stuck_without_progress_witness :
  snd (write (set_audio init (Some SCO_socket) 0) [x01; x02]
             AUDIO_8KHZ_SIGNED_8BIT_MONO [Return 0; Return 0; Return 0]) = None
  /\ List.length
       (audio_frames
          (fst (write (set_audio init (Some SCO_socket) 0) [x01; x02]
                      AUDIO_8KHZ_SIGNED_8BIT_MONO [Return 0; Return 0; Return 0])))
     = List.length [Return 0; Return 0; Return (A := Z) 0].
Proof.
  apply (write_stuck_without_progress (set_audio init (Some SCO_socket) 0) SCO_socket).
  - reflexivity.
  - repeat constructor.
Defined.

Lemma send_frames_progress (payload : Z) (data : bytes) (tx : list (outcome Z)) :
  Forall (fun r => exists n, r = Return n /\ 1 <= n) tx ->
  forall sent,
    len data - sent <= Z.of_nat (List.length tx) ->
    snd (send_frames payload data sent tx) = Some (Return tt).
Proof.
  induction 1 as [|r tx (n & -> & Hn) _ IH]; intros sent Hlen; cbn [send_frames].
  - cbn [List.length] in Hlen. destruct (Z.ltb_spec sent (len data)); [lia|reflexivity].
  - destruct (Z.ltb_spec sent (len data)); [|reflexivity].
    specialize (IH (sent + n)). cbn [List.length] in Hlen.
    destruct (send_frames payload data (sent + n) tx) as [tr res].
    cbn [snd] in *. apply IH. lia.
Qed.

(** X6.  [write] returns [True] once the transport has made enough progress:
    with an audio session, if every send reports at least one byte sent and
    there are at least as many sends available as bytes to send, the
    native-format call returns [True]. *)
Theorem write_returns_with_progress (self : BluetoothAudio) (s : socket)
        (data : bytes) (tx : list (outcome Z)) :
  audio self = Some s ->
  Forall (fun r => exists n, r = Return n /\ 1 <= n) tx ->
  len data <= Z.of_nat (List.length tx) ->
  snd (write self data AUDIO_8KHZ_SIGNED_8BIT_MONO tx) = Some (Return true).
Proof.
  intros Ha Htx Hlen. unfold write. rewrite Ha.
  change (AUDIO_8KHZ_SIGNED_8BIT_MONO =? AUDIO_8KHZ_SIGNED_8BIT_MONO) with true.
  cbv iota.
  pose proof (send_frames_progress (sco_payload self) data tx Htx 0 ltac:(lia)) as H.
  destruct (send_frames (sco_payload self) data 0 tx) as [tr res].
  cbn [snd] in *. subst res. reflexivity.
Qed.

Lemma write_returns_with_progress_witness :
  snd (write (set_audio init (Some SCO_socket) 2) [x01; x02; x03]
             AUDIO_8KHZ_SIGNED_8BIT_MONO [Return 2; Return 2; Return 2])
  = Some (Return true).
Proof.
  apply (write_returns_with_progress (set_audio init (Some SCO_socket) 2) SCO_socket).
  - reflexivity.
  - repeat constructor; eexists; (split; [reflexivity|lia]).
  - vm_compute. discriminate.
Defined.

(** ** What [read] and [write] let escape *)

Lemma send_frames_transport (payload : Z) (data : bytes) (tx : list (outcome Z)) :
  Forall transport_like tx ->
  forall sent,
    match snd (send_frames payload data sent tx) with
    | Some r => transport_like r
    | None => True
    end.
Proof.
  induction 1 as [|r tx Hr _ IH]; intros sent; cbn [send_frames].
  - destruct (sent <? len data); exact I.
  - destruct (sent <? len data); [|exact I].
    destruct r as [n|e]; [|exact Hr].
    specialize (IH (sent + n)).
    destruct (send_frames payload data (sent + n) tx) as [tr res]. exact IH.
Qed.

(** X7.  [read], in either format, and [write], in the native format, never
    raise as long as the audio socket itself raises nothing but
    [BluetoothError]: [read] returns data or [None], [write] returns a
    boolean or is still sending. *)
Theorem read_write_never_raise (self : BluetoothAudio) (format : Z) (data : bytes)
        (rx : outcome bytes) (tx : list (outcome Z)) :
  transport_like rx ->
  Forall transport_like tx ->
  (exists r, read self format rx = Return r)
  /\ (snd (write self data AUDIO_8KHZ_SIGNED_8BIT_MONO tx) = None
      \/ exists ok, snd (write self data AUDIO_8KHZ_SIGNED_8BIT_MONO tx)
                    = Some (Return ok)).
Proof.
  intros Hrx Htx. split.
  - unfold read. destruct (audio self); [|eexists; reflexivity].
    destruct rx as [d|[msg| | | | | |]]; try contradiction; cbn [bind except_bluetooth];
      [|eexists; reflexivity].
    destruct (format =? AUDIO_8KHZ_SIGNED_8BIT_MONO); [eexists; reflexivity|].
    rewrite upsample_flat_map. eexists; reflexivity.
  - unfold write. destruct (audio self); [|right; eexists; reflexivity].
    change (AUDIO_8KHZ_SIGNED_8BIT_MONO =? AUDIO_8KHZ_SIGNED_8BIT_MONO) with true.
    cbv iota.
    pose proof (send_frames_transport (sco_payload self) data tx Htx 0) as H.
    destruct (send_frames (sco_payload self) data 0 tx) as [tr [[[]|[msg| | | | | |]]|]];
      cbn in *; try contradiction; try (left; reflexivity);
      right; eexists; reflexivity.
Qed.

Lemma read_write_never_raise_witness :
  (exists r, read (set_audio init (Some SCO_socket) 2)
                  AUDIO_16KHZ_SIGNED_16BIT_LE_MONO
                  (Raise (BluetoothError "Connection reset by peer")) = Return r)
  /\ (snd (write (set_audio init (Some SCO_socket) 2) [x01; x02; x03]
                 AUDIO_8KHZ_SIGNED_8BIT_MONO
                 [Return 2; Raise (BluetoothError "Connection reset by peer")]) = None
      \/ exists ok,
           snd (write (set_audio init (Some SCO_socket) 2) [x01; x02; x03]
                      AUDIO_8KHZ_SIGNED_8BIT_MONO
                      [Return 2; Raise (BluetoothError "Connection reset by peer")])
           = Some (Return ok)).
Proof.
  apply (read_write_never_raise (set_audio init (Some SCO_socket) 2)).
  - exact I.
  - repeat constructor.
Defined.

(** ** When the conversion of [write] raises *)

Lemma list_ind4 {A : Type} (P : list A -> Prop) :
  P [] ->
  (forall a, P [a]) ->
  (forall a b, P [a; b]) ->
  (forall a b c, P [a; b; c]) ->
  (forall a b c d rest, P rest -> P (a :: b :: c :: d :: rest)) ->
  forall l, P l.
Proof.
  intros H0 H1 H2 H3 H4. fix IH 1.
  intros [|a [|b0 [|c [|d rest]]]];
    [exact H0|apply H1|apply H2|apply H3|apply H4; apply IH].
Qed.

Lemma pack_b_cases (v : Z) :
  (-128 <= v <= 127 /\ pack_b v = Return [byte_of_Z (v mod 256)])
  \/ (~ -128 <= v <= 127 /\ pack_b v = Raise StructError).
Proof.
  unfold pack_b.
  destruct (Z.leb_spec (-128) v), (Z.leb_spec v 127); cbn [andb];
    [left|right|right|right]; split; try reflexivity; lia.
Qed.

Lemma flat_groups_short (gs : list group) (data : bytes) :
  data = flat_map group_bytes gs -> (0 < List.length data < 4)%nat -> False.
Proof.
  intros -> H. destruct gs as [|[[[a b0] c] d] gs]; cbn in H; lia.
Qed.

Lemma flat_groups_cons (gs : list group) (a b0 c d : byte) (rest : bytes) :
  a :: b0 :: c :: d :: rest = flat_map group_bytes gs ->
  exists gs', gs = (a, b0, c, d) :: gs' /\ rest = flat_map group_bytes gs'.
Proof.
  destruct gs as [|[[[a' b'] c'] d'] gs]; cbn; intros E; [discriminate|].
  injection E as -> -> -> -> ->. eexists; split; reflexivity.
Qed.

Lemma downsample_cases (data : bytes) :
  ((exists gs, data = flat_map group_bytes gs
               /\ Forall (fun g => group_sum g < 65280) gs)
   /\ exists out, downsample data = Return out)
  \/ ((~ exists gs, data = flat_map group_bytes gs
                    /\ Forall (fun g => group_sum g < 65280) gs)
      /\ downsample data = Raise StructError).
Proof.
  induction data as [|a|a b0|a b0 c|a b0 c d rest IH] using list_ind4.
  - left. split; [exists []; split; [reflexivity|constructor]|exists []; reflexivity].
  - right. split; [|apply downsample_partial; cbn; lia].
    intros (gs & E & _). apply (flat_groups_short gs _ E). cbn; lia.
  - right. split; [|apply downsample_partial; cbn; lia].
    intros (gs & E & _). apply (flat_groups_short gs _ E). cbn; lia.
  - right. split; [|apply downsample_partial; cbn; lia].
    intros (gs & E & _). apply (flat_groups_short gs _ E). cbn; lia.
  - rewrite downsample_group.
    change (unpack_h a b0 + unpack_h c d) with (group_sum (a, b0, c, d)).
    pose proof (group_sum_range (a, b0, c, d)) as Hr.
    destruct (Z_lt_le_dec (group_sum (a, b0, c, d)) 65280) as [Hok|Hbig].
    + rewrite pack_b_in_range by (apply py_round_512_bounds; lia).
      cbn [bind].
      destruct IH as [((gs & -> & Hgs) & out & ->)|(Hno & ->)].
      * left. split.
        -- exists ((a, b0, c, d) :: gs). split; [reflexivity|constructor; assumption].
        -- eexists; reflexivity.
      * right. split; [|reflexivity].
        intros (gs & E & Hall). apply Hno.
        destruct (flat_groups_cons gs _ _ _ _ _ E) as (gs' & -> & ->).
        exists gs'. split; [reflexivity|]. inversion Hall; assumption.
    + rewrite py_round_512_overflow by lia.
      right. split; [|reflexivity].
      intros (gs & E & Hall).
      destruct (flat_groups_cons gs _ _ _ _ _ E) as (gs' & -> & _).
      inversion Hall; subst. lia.
Qed.

(** X8.  The conversion of [write] returns exactly on the inputs made of
    whole 4-byte groups whose two samples add up to less than 65280; on
    every other input (a trailing partial group, or a pair at positive full
    scale) it raises, and what it raises is always [struct.error]. *)
Theorem downsample_returns_iff (data : bytes) :
  ((exists out, downsample data = Return out)
   <-> exists gs, data = flat_map group_bytes gs
                  /\ Forall (fun g => group_sum g < 65280) gs)
  /\ forall e, downsample data = Raise e -> e = StructError.
Proof.
  destruct (downsample_cases data) as [(Hgs & out & E)|(Hno & E)]; rewrite E.
  - split; [split; [intros _; exact Hgs|intros _; eexists; reflexivity]|].
    intros e H; discriminate.
  - split; [split; [intros (out & H); discriminate|intros H; contradiction]|].
    intros e H. congruence.
Qed.

(** ** Teardown: [_cleanup] and [close] *)

(** X9.  [close] on an object whose worker is still registered returns,
    closes each socket that is open exactly once, and leaves the object with
    no audio session, no control session and no worker; tearing down again
    ([_cleanup]) is then a no-op, while a second [close] raises. *)
Theorem close_tears_down (self : BluetoothAudio) (w : thread) :
  pt self = Some w ->
  exists tr self',
    close self = (tr, Return self')
    /\ audio self' = None /\ hfp self' = None /\ pt self' = None
    /\ is_connected self' = false
    /\ count is_close_audio tr = (if is_connected self then 1 else 0)%nat
    /\ count is_close_service tr
       = (match hfp self with Some _ => 1 | None => 0 end)%nat
    /\ cleanup self' = ([], Return self')
    /\ snd (close self') = Raise AttributeError.
Proof.
  intros Hpt. unfold close, cleanup, is_connected. rewrite Hpt.
  destruct self as [a h ch p t]. cbn [audio hfp set_pt channel sco_payload pt].
  destruct a, h; eexists _, _; (split; [reflexivity|]); cbn; repeat split.
Qed.

Lemma close_tears_down_witness :
  exists tr self',
    close (mkBluetoothAudio (Some SCO_socket) (Some RFCOMM_socket) (Some 1) 48
                            (Some Worker))
    = (tr, Return self')
    /\ audio self' = None /\ hfp self' = None /\ pt self' = None
    /\ is_connected self' = false
    /\ count is_close_audio tr = 1%nat
    /\ count is_close_service tr = 1%nat
    /\ cleanup self' = ([], Return self')
    /\ snd (close self') = Raise AttributeError.
Proof.
  apply (close_tears_down
           (mkBluetoothAudio (Some SCO_socket) (Some RFCOMM_socket) (Some 1) 48
                             (Some Worker)) Worker).
  reflexivity.
Defined.

(** ** Chunks that do not decode *)

Lemma utf8_ok_xff (d : bytes) :
  forall (need : nat) (lo hi : Z),
    hi <= 191 -> In xff d -> utf8_ok need lo hi d = false.
Proof.
  induction d as [|c d IH]; intros need lo hi Hhi Hin; [destruct Hin|].
  destruct Hin as [->|Hin].
  - destruct need; [reflexivity|].
    cbn [utf8_ok]. change (byte_val xff) with 255.
    destruct (Z.leb_spec 255 hi); [lia|]. rewrite andb_false_r. reflexivity.
  - cbn [utf8_ok]. destruct need.
    + repeat match goal with
             | |- (if ?c then _ else _) = false => destruct c
             end; try reflexivity; apply IH; (lia || assumption).
    + destruct ((lo <=? byte_val c) && (byte_val c <=? hi)); [|reflexivity].
      apply IH; (lia || assumption).
Qed.

Lemma utf8_ok_ascii (d : bytes) :
  Forall (fun c => byte_val c <= 127) d -> utf8_ok 0 128 191 d = true.
Proof.
  induction 1 as [|c d Hc _ IH]; [reflexivity|].
  cbn [utf8_ok]. destruct (Z.leb_spec (byte_val c) 127); [exact IH|lia].
Qed.

(** X10.  What [_read_at] makes of a received chunk: a chunk of 7-bit bytes
    is always returned as it is, while a chunk that contains the byte 0xFF
    anywhere makes the debug log's [decode('utf8')] raise
    [UnicodeDecodeError]. *)
Theorem read_at_decodes (d : bytes) :
  (Forall (fun c => byte_val c <= 127) d -> read_at (Return d) = Return (Some d))
  /\ (In xff d -> read_at (Return d) = Raise UnicodeDecodeError).
Proof.
  unfold read_at, decode_utf8. split; intros H.
  - rewrite utf8_ok_ascii by assumption. reflexivity.
  - rewrite utf8_ok_xff by (assumption || lia). reflexivity.
Qed.

Lemma read_at_decodes_witness :
  read_at (Return AT_CIND_READ) = Return (Some AT_CIND_READ)
  /\ read_at (Return (b "AT" ++ [xff])) = Raise UnicodeDecodeError.
Proof.
  split.
  - apply (proj1 (read_at_decodes AT_CIND_READ)).
    repeat constructor; vm_compute; discriminate.
  - apply (proj2 (read_at_decodes (b "AT" ++ [xff]))).
    right; right; left; reflexivity.
Defined.

(** X11.  Such a chunk ends the worker: when the control link has just been
    opened and the first chunk received contains the byte 0xFF, the turn of
    the supervisor loop raises [UnicodeDecodeError] (its handler only covers
    [BluetoothError]); nothing is answered, and the control socket that was
    connected is not closed. *)
Theorem undecodable_chunk_kills_worker (self : BluetoothAudio) (c : cycle)
        (ch : Z) (t : tick) (rest : list tick) (d : bytes) :
  resolve_channel (found c) = Some ch ->
  ch <> 0 ->
  service_ok c = true ->
  turns c = t :: rest ->
  rx t = Return d ->
  In xff d ->
  worker_iteration self c = ([FindService; ConnectService ch], Raise UnicodeDecodeError).
Proof.
  intros Hch Hnz Hok Hturns Hrx Hin.
  unfold worker_iteration, find_channel.
  cbn [bind_act emit ret app]. cbn [channel set_channel]. rewrite Hch.
  cbn [truthy]. destruct (Z.eqb_spec ch 0) as [|_]; [contradiction|].
  cbn [negb]. unfold connect_service_level. cbn [channel set_channel].
  rewrite Hok. cbn [bind_act emit ret app hfp set_hfp].
  unfold parse_channel. rewrite Hturns. cbn [parse_loop].
  unfold parse_step, read_at, decode_utf8. rewrite Hrx.
  rewrite utf8_ok_xff by (assumption || lia).
  reflexivity.
Qed.

Lemma undecodable_chunk_kills_worker_witness :
  worker_iteration init
    (mkCycle [mkService [HANDSFREE_CLASS] 7] true 0
             [tick_received (b "AT" ++ [xff]) 0])
  = ([FindService; ConnectService 7], Raise UnicodeDecodeError).
Proof.
  apply (undecodable_chunk_kills_worker
           init
           (mkCycle [mkService [HANDSFREE_CLASS] 7] true 0
                    [tick_received (b "AT" ++ [xff]) 0])
           7 (tick_received (b "AT" ++ [xff]) 0) [] (b "AT" ++ [xff])).
  - reflexivity.
  - lia.
  - reflexivity.
  - reflexivity.
  - reflexivity.
  - right; right; left; reflexivity.
Defined.

(** ** The supervisor between sessions *)

Lemma link_event_no_service (tr : list event) :
  Forall link_event tr ->
  count is_connect_service tr = 0%nat /\ count is_close_service tr = 0%nat.
Proof.
  induction 1 as [|ev tr Hev _ [IH1 IH2]]; [split; reflexivity|].
  destruct ev; try destruct Hev; unfold count in *; cbn; auto.
Qed.

Lemma cleanup_idle (self : BluetoothAudio) :
  exists tr self',
    cleanup self = (tr, Return self')
    /\ audio self' = None /\ hfp self' = None
    /\ count is_connect_service tr = 0%nat
    /\ count is_close_service tr = (match hfp self with Some _ => 1 | None => 0 end)%nat.
Proof.
  unfold cleanup. destruct (audio self), (hfp self);
    eexists _, _; (split; [reflexivity|]); repeat split.
Qed.

(** X12.  Within one control session the loop of [_parse_channel] never
    touches the control socket, the channel or the worker, and never drops
    an audio session: once [is_connected] is true it stays true until the
    teardown that follows the session. *)
Theorem session_keeps_audio (self : BluetoothAudio) (start : Q) (ticks : list tick) :
  let self' := snd (fst (parse_channel self start ticks)) in
  hfp self' = hfp self /\ channel self' = channel self /\ pt self' = pt self
  /\ (is_connected self = true -> is_connected self' = true).
Proof.
  unfold parse_channel. cbv zeta.
  pose proof (parse_loop_kept (start + HFP_CONNECT_AUDIO_TIMEOUT) ticks self true)
    as (H1 & H2 & H3 & H4).
  destruct (parse_loop _ _ ticks) as [[tr st] r]. cbn [fst snd] in *.
  repeat split; try assumption.
  unfold is_connected. destruct (audio self); [|discriminate].
  intros _. destruct (audio (fst st)); [reflexivity|].
  exfalso. apply H4; [discriminate|reflexivity].
Qed.

Lemma worker_iteration_idle (self : BluetoothAudio) (c : cycle)
      (tr : list event) (self' : BluetoothAudio) :
  audio self = None -> hfp self = None ->
  worker_iteration self c = (tr, Return self') ->
  audio self' = None /\ hfp self' = None
  /\ count is_connect_service tr = count is_close_service tr.
Proof.
  intros Ha Hh. unfold worker_iteration, find_channel.
  cbn [bind_act emit ret app]. set (self1 := set_channel self (resolve_channel (found c))).
  destruct (truthy (channel self1)) eqn:Ht; cbn [negb].
  2:{ cbn. intros H. injection H as <- <-. repeat split; assumption. }
  unfold connect_service_level.
  destruct (channel self1) as [ch|] eqn:Hch; [|discriminate].
  destruct (service_ok c).
  2:{ cbn. rewrite Hh. cbn. intros H. injection H as <- <-.
      repeat split; assumption. }
  cbn [bind_act emit ret app hfp set_hfp].
  destruct (parse_loop_facts (started c + HFP_CONNECT_AUDIO_TIMEOUT) (turns c)
                             (set_hfp self1 (Some RFCOMM_socket)) true) as (Hl & _).
  pose proof (parse_loop_kept (started c + HFP_CONNECT_AUDIO_TIMEOUT) (turns c)
                              (set_hfp self1 (Some RFCOMM_socket)) true)
    as (Hk & _).
  unfold parse_channel.
  destruct (parse_loop _ _ (turns c)) as [[trp st] r]. cbn [fst snd] in *.
  destruct (link_event_no_service trp Hl) as [Hc0 Hd0].
  destruct (cleanup_idle (fst st)) as (trc & self2 & Ec & Ha2 & Hh2 & Hcc & Hdc).
  rewrite Hk in Hdc.
  destruct r as [[]|[msg| | | | | |]]; cbn [bind_act emit throw ret app];
    rewrite ?Ec; cbn [bind_act app]; intros H; try discriminate;
    injection H as <- <-; (split; [assumption|]); (split; [assumption|]).
  - change (FindService :: ConnectService ch :: trp ++ trc)
      with ([FindService; ConnectService ch] ++ trp ++ trc).
    rewrite !count_app, Hc0, Hd0, Hcc, Hdc. reflexivity.
  - change (FindService :: ConnectService ch :: trp
              ++ Warning "Service level connection disconnected"
                 :: Sleep HFP_TIMEOUT :: trc)
      with ([FindService; ConnectService ch] ++ trp
              ++ [Warning "Service level connection disconnected"; Sleep HFP_TIMEOUT]
              ++ trc).
    rewrite !count_app, Hc0, Hd0, Hcc, Hdc. reflexivity.
Qed.

(** X13.  The supervisor between sessions: started with no session open,
    whenever the loop of [_worker_loop] has completed some turns it holds
    neither a control nor an audio session, and it has closed exactly as
    many control sockets as it has connected. *)
Theorem supervisor_idle_between_sessions (cycles : list cycle) :
  forall (self : BluetoothAudio) (tr : list event) (self' : BluetoothAudio),
    audio self = None -> hfp self = None ->
    worker_loop self cycles = (tr, Return self') ->
    audio self' = None /\ hfp self' = None
    /\ count is_connect_service tr = count is_close_service tr.
Proof.
  induction cycles as [|c rest IH]; intros self tr self' Ha Hh; cbn [worker_loop].
  - intros H. injection H as <- <-. repeat split; assumption.
  - intros H. apply bind_act_return in H as (tr1 & s1 & tr2 & E1 & E2 & ->).
    destruct (worker_iteration_idle self c tr1 s1 Ha Hh E1) as (Ha1 & Hh1 & Hc1).
    destruct (IH s1 tr2 self' Ha1 Hh1 E2) as (Ha2 & Hh2 & Hc2).
    rewrite !count_app. repeat split; try assumption. lia.
Qed.

Lemma session_keeps_audio_witness :
  let self := set_audio linked (Some SCO_socket) 48 in
  let self' := snd (fst (parse_channel self 0
                                       [tick_timeout 11; tick_received AT_CIND_READ 12])) in
  hfp self' = hfp self /\ channel self' = channel self /\ pt self' = pt self
  /\ is_connected self' = true.
Proof.
  destruct (session_keeps_audio (set_audio linked (Some SCO_socket) 48) 0
                                [tick_timeout 11; tick_received AT_CIND_READ 12])
    as (H1 & H2 & H3 & H4).
  split; [exact H1|]. split; [exact H2|]. split; [exact H3|].
  apply H4. reflexivity.
Defined.

Lemma supervisor_idle_between_sessions_witness :
  exists tr self',
    worker_loop init two_cycles = (tr, Return self')
    /\ audio self' = None /\ hfp self' = None
    /\ count is_connect_service tr = count is_close_service tr.
Proof.
  eexists _, _. split; [reflexivity|].
  exact (supervisor_idle_between_sessions two_cycles init _ _ eq_refl eq_refl eq_refl).
Defined.

(** ** The other rows of the AT table *)

(** X14.  For a received chunk that decodes and a control socket that accepts
    every frame: a chunk that contains [AT+BRSF=] is answered with
    [+BRSF: 0] then [OK], whatever else it contains; a chunk equal to
    [AT+CIND=?\r] with the indicator description then [OK]; a chunk equal to
    [AT+CHLD=?\r] with [+CHLD: 0] then [OK].  The two frames are the first
    things the turn does, and nothing else is written. *)
Theorem at_dispatch_replies (audio_time : Q) (self : BluetoothAudio) (notice : bool)
        (t : tick) (data : bytes) :
  rx t = Return data ->
  (forall d, tx_ok t d = true) ->
  decode_utf8 data = Return tt ->
  let r := parse_step audio_time (self, notice) t in
  let replied payload :=
    exists tr', fst r = SendService (frame payload) :: SendService (frame (b "OK")) :: tr'
                /\ sent_bytes tr' = [] in
  (bytes_in AT_BRSF data = true -> replied RESP_BRSF)
  /\ (data = AT_CIND_TEST -> replied RESP_CIND_TEST)
  /\ (data = AT_CHLD_TEST -> replied RESP_CHLD).
Proof.
  intros Hrx Htx Hdec r replied. subst r replied. cbv beta.
  destruct data as [|c d].
  { repeat split; intros H; discriminate. }
  rewrite (parse_step_received audio_time self notice t c d Hrx Hdec).
  unfold dispatch, send_ok, send_error, send_at, send.
  rewrite !Htx.
  destruct (bytes_in AT_BRSF (c :: d)) eqn:E1.
  { after_grace [SendService (CRLF ++ RESP_BRSF ++ CRLF);
                 SendService (CRLF ++ b "OK" ++ CRLF)] (self, notice) audio_time t.
    cbn [bind_act emit ret app] in *. rewrite E. cbn [fst snd].
    split; [intros _; eexists; split; [reflexivity|assumption]|].
    split; intros E'; rewrite E' in E1; discriminate. }
  split; [discriminate|].
  destruct (bytes_eqb AT_CIND_TEST (c :: d)) eqn:E2.
  { apply bytes_eqb_eq in E2.
    after_grace [SendService (CRLF ++ RESP_CIND_TEST ++ CRLF);
                 SendService (CRLF ++ b "OK" ++ CRLF)] (self, notice) audio_time t.
    cbn [bind_act emit ret app] in *. rewrite E. cbn [fst snd].
    split; [intros _; eexists; split; [reflexivity|assumption]|].
    intros E'; rewrite E' in E2; discriminate. }
  split; [intros E'; rewrite E', bytes_eqb_refl in E2; discriminate|].
  intros E'. rewrite E'.
  change (bytes_eqb AT_CIND_READ AT_CHLD_TEST) with false.
  change (bytes_in AT_CMER AT_CHLD_TEST) with false.
  change (bytes_eqb AT_CHLD_TEST AT_CHLD_TEST) with true. cbv iota.
  after_grace [SendService (CRLF ++ RESP_CHLD ++ CRLF);
               SendService (CRLF ++ b "OK" ++ CRLF)] (self, notice) audio_time t.
  cbn [bind_act emit ret app] in *. rewrite E. cbn [fst snd].
  eexists; split; [reflexivity|assumption].
Qed.

Lemma at_dispatch_replies_witness :
  let r := parse_step 10 (linked, true) (tick_received (b "AT+BRSF=27" ++ CR) 0) in
  exists tr', fst r = SendService (frame RESP_BRSF) :: SendService (frame (b "OK")) :: tr'
              /\ sent_bytes tr' = [].
Proof.
  destruct (at_dispatch_replies 10 linked true
                                (tick_received (b "AT+BRSF=27" ++ CR) 0)
                                (b "AT+BRSF=27" ++ CR)
                                eq_refl (fun _ => eq_refl) eq_refl) as (Hbrsf & _).
  apply Hbrsf. reflexivity.
Defined.

(** ** Idle turns *)

Lemma parse_step_idle (audio_time : Q) (self : BluetoothAudio) (n : bool) (t : tick) :
  timed_out t ->
  (audio self <> None \/ (now t <= audio_time)%Q) ->
  parse_step audio_time (self, n) t = ([], Return (self, n)).
Proof.
  intros Hrx Hidle. unfold parse_step, read_at. rewrite Hrx.
  change (String.eqb "timed out" "timed out") with true. cbv iota.
  rewrite bind_act_ret_l. unfold ret at 1. rewrite bind_act_ret_l. cbn [fst snd].
  unfold grace. destruct (audio self) eqn:Ha; [reflexivity|].
  destruct Hidle as [Hx|Hle]; [contradiction|].
  destruct (Qlt_le_dec audio_time (now t)) as [Hlt|_]; [|reflexivity].
  exfalso. exact (Qlt_not_le _ _ Hlt Hle).
Qed.

(** X15.  Idle polling is free of effects: while every receive on the
    control socket times out and either an audio session exists or the grace
    period has not run out, the loop of [_parse_channel] sends nothing, makes
    no connect attempt, emits no warning and leaves the object as it was,
    for any number of turns. *)
Theorem idle_turns_do_nothing (self : BluetoothAudio) (start : Q) (ticks : list tick) :
  Forall (fun t => timed_out t
                   /\ (audio self <> None
                       \/ (now t <= start + HFP_CONNECT_AUDIO_TIMEOUT)%Q)) ticks ->
  parse_channel self start ticks = ([], self, Return tt).
Proof.
  intros Hall. unfold parse_channel. cbv zeta.
  assert (forall n, parse_loop (start + HFP_CONNECT_AUDIO_TIMEOUT) (self, n) ticks
                    = ([], (self, n), Return tt)) as H.
  { induction Hall as [|t rest [Ht Hi] _ IH]; intros n; [reflexivity|].
    cbn [parse_loop]. rewrite (parse_step_idle _ self n t Ht Hi), IH. reflexivity. }
  rewrite H. reflexivity.
Qed.

Lemma idle_turns_do_nothing_witness :
  parse_channel linked 0 [tick_timeout 1; tick_timeout 2; tick_timeout 10]
  = ([], linked, Return tt).
Proof.
  apply (idle_turns_do_nothing linked 0 [tick_timeout 1; tick_timeout 2; tick_timeout 10]).
  repeat (apply Forall_cons; [split; [reflexivity|right; discriminate]|]).
  apply Forall_nil.
Defined.

(** ** More on the channel resolver *)

Lemma lower_ascii_idem (c : ascii) : lower_ascii (lower_ascii c) = lower_ascii c.
Proof.
  destruct c as [[] [] [] [] [] [] [] []]; reflexivity.
Qed.

Lemma lower_idem (s : string) : lower (lower s) = lower s.
Proof.
  induction s as [|c s IH]; [reflexivity|].
  cbn [lower]. rewrite lower_ascii_idem, IH. reflexivity.
Qed.

Lemma has_class_lower (cls : string) (svc : service) :
  has_class cls (lower_service svc) = has_class cls svc.
Proof.
  unfold has_class, lower_service. cbn [service_classes].
  induction (service_classes svc) as [|c cs IH]; [reflexivity|].
  cbn [map existsb]. rewrite lower_idem, IH. reflexivity.
Qed.

Lemma scan_services_lower (services : list service) (hsp gen : option Z) :
  scan_services (map lower_service services) hsp gen = scan_services services hsp gen.
Proof.
  revert hsp gen; induction services as [|svc rest IH]; intros hsp gen; [reflexivity|].
  cbn [map scan_services]. rewrite !scan_classes_spec.
  change (existsb (fun c => String.eqb (lower HANDSFREE_CLASS) (lower c))
                  (service_classes (lower_service svc)))
    with (has_class HANDSFREE_CLASS (lower_service svc)).
  change (existsb (fun c => String.eqb (lower HEADSET_CLASS) (lower c))
                  (service_classes (lower_service svc)))
    with (has_class HEADSET_CLASS (lower_service svc)).
  change (existsb (fun c => String.eqb (lower GENERIC_AUDIO_CLASS) (lower c))
                  (service_classes (lower_service svc)))
    with (has_class GENERIC_AUDIO_CLASS (lower_service svc)).
  rewrite !has_class_lower. unfold has_class. cbn [port lower_service].
  destruct (existsb _ (service_classes svc)); [reflexivity|]. apply IH.
Qed.

(** X16.  The resolver compares class identifiers without regard to letter
    case: writing every advertised identifier in lower case (["111e"] for
    ["111E"]) does not change the channel it selects. *)
Theorem resolve_channel_ignores_case (services : list service) :
  resolve_channel (map lower_service services) = resolve_channel services.
Proof.
  unfold resolve_channel. rewrite scan_services_lower. reflexivity.
Qed.

Lemma last_port_from_none (cls : string) (services : list service) (acc : option Z) :
  (forall svc, In svc services -> has_class cls svc = false) ->
  last_port_from acc cls services = acc.
Proof.
  unfold last_port_from. revert acc.
  induction services as [|svc rest IH]; intros acc H; [reflexivity|].
  cbn [fold_left]. rewrite (H svc) by (left; reflexivity).
  apply IH. intros; apply H; right; assumption.
Qed.

(** X17.  When no record advertises Handsfree, Headset or GenericAudio (in
    particular when the service query returns nothing), the resolver leaves
    no channel, and the supervisor's turn consists of the query and one
    cooldown sleep: no control connection is attempted. *)
Theorem no_audio_class_no_channel (self : BluetoothAudio) (c : cycle) :
  (forall svc, In svc (found c) -> audio_class svc = false) ->
  resolve_channel (found c) = None
  /\ worker_iteration self c
     = ([FindService; Sleep HFP_TIMEOUT], Return (set_channel self None)).
Proof.
  intros Hnone.
  assert (forall cls,
             cls = HANDSFREE_CLASS \/ cls = HEADSET_CLASS \/ cls = GENERIC_AUDIO_CLASS ->
             forall svc, In svc (found c) -> has_class cls svc = false) as Hcls.
  { intros cls Hc svc Hin. specialize (Hnone svc Hin). unfold audio_class in Hnone.
    apply orb_false_iff in Hnone as [Hnone Hga].
    apply orb_false_iff in Hnone as [Hhf Hhs].
    destruct Hc as [->|[->| ->]]; assumption. }
  assert (resolve_channel (found c) = None) as Hres.
  { unfold resolve_channel. rewrite scan_services_spec.
    destruct (find (has_class HANDSFREE_CLASS) (found c)) as [svc|] eqn:Ef.
    - apply find_some in Ef as [Hin Hhf].
      rewrite (Hcls HANDSFREE_CLASS (or_introl eq_refl) svc Hin) in Hhf. discriminate.
    - rewrite !last_port_from_none; [reflexivity| |].
      + apply Hcls. right; right; reflexivity.
      + apply Hcls. right; left; reflexivity. }
  split; [exact Hres|].
  unfold worker_iteration, find_channel. rewrite Hres. reflexivity.
Qed.

Lemma no_audio_class_no_channel_witness :
  let c := mkCycle [mkService ["1101"%string; "1200"%string] 3] true 0 [] in
  resolve_channel (found c) = None
  /\ worker_iteration init c
     = ([FindService; Sleep HFP_TIMEOUT], Return (set_channel init None)).
Proof.
  apply (no_audio_class_no_channel init (mkCycle [mkService ["1101"%string; "1200"%string] 3] true 0 [])).
  intros svc [<-|[]]. reflexivity.
Defined.

(** ** More on the tone generator *)




Lemma nth_error_py_range (f : Z -> Z) (n : Z) (k : nat) :
  Z.of_nat k < n ->
  nth_error (map f (py_range 0 n 1)) k = Some (f (Z.of_nat k)).
Proof.
  intros Hk. unfold py_range. rewrite map_map.
  replace (n - 0 + 1 - 1) with n by lia. rewrite Z.div_1_r.
  rewrite nth_error_map, nth_error_seq.
  destruct (Nat.ltb_spec k (Z.to_nat n)); [|lia].
  cbn [option_map]. f_equal. f_equal. lia.
Qed.

(** X19.  The tone repeats: when the period and the length are computed,
    the period is positive and at most [2 ** 1020], the amplitude lies in
    [0, 1] and the sine in [-1, 1], [beep] computes its samples without
    error, and every sample equals the one [period] positions before it. *)
Theorem beep_samples_periodic (math_sin : Q -> Q)
        (length_ms frequency amplitude : num) (a : Q) (period length : Z) :
  (forall x, -1 <= math_sin x <= 1)%Q ->
  to_float amplitude = Return (Fin a) -> (0 <= a <= 1)%Q ->
  beep_period frequency = Return period ->
  0 < period <= 2 ^ 1020 ->
  beep_length length_ms = Return length ->
  exists snd : bytes,
    beep_samples math_sin length_ms frequency amplitude = Return snd
    /\ forall i : nat,
         Z.of_nat i + period < length ->
         nth_error (samples_of snd) (i + Z.to_nat period) = nth_error (samples_of snd) i
         /\ nth_error (samples_of snd) i <> None.
Proof.
  intros Hsin Ha Hamp Hper Hpos Hlen.
  destruct (beep_samples_values math_sin length_ms frequency amplitude a period
                                length Hsin Ha Hamp Hper ltac:(lia) ltac:(lia) Hlen)
    as [Hval Hs].
  eexists. split; [exact Hs|].
  intros i Hi. rewrite samples_of_flat_map.
  - rewrite !nth_error_py_range by lia.
    split; [|discriminate].
    f_equal. unfold sample_at.
    replace (Z.of_nat (i + Z.to_nat period)) with (Z.of_nat i + period) by lia.
    rewrite beep_val_shift. reflexivity.
  - intros j _. destruct (Hval j) as (v & _ & Es & Hv). rewrite Es. exact Hv.
Qed.

Lemma beep_samples_periodic_witness :
  exists snd : bytes,
    beep_samples sin_clamped (Int 2) (Flt (Fin 2000)) (Flt (Fin (1 # 2))) = Return snd
    /\ forall i : nat,
         Z.of_nat i + 4 < 16 ->
         nth_error (samples_of snd) (i + Z.to_nat 4) = nth_error (samples_of snd) i
         /\ nth_error (samples_of snd) i <> None.
Proof.
  apply (beep_samples_periodic sin_clamped (Int 2) (Flt (Fin 2000))
                               (Flt (Fin (1 # 2))) (1 # 2) 4 16 sin_clamped_range).
  - reflexivity.
  - split; discriminate.
  - vm_compute. reflexivity.
  - lia.
  - vm_compute. reflexivity.
Defined.

(** ** Transport failures on the control link *)

Lemma dispatch_send_fails (self : BluetoothAudio) (n : bool) (t : tick) (data : bytes) :
  (forall x, tx_ok t x = false) ->
  exists msg, dispatch self n t data = ([], Raise (BluetoothError msg)).
Proof.
  intros Htx. unfold dispatch, send_ok, send_error, send_at, send.
  rewrite !Htx.
  repeat match goal with
         | |- context [if ?c then _ else _] => destruct c
         end; eexists; reflexivity.
Qed.

Lemma parse_step_link_failure (audio_time : Q) (self : BluetoothAudio) (n : bool)
      (t : tick) :
  (exists msg, rx t = Raise (BluetoothError msg) /\ msg <> "timed out"%string)
  \/ (exists c d, rx t = Return (c :: d) /\ decode_utf8 (c :: d) = Return tt
                  /\ forall x, tx_ok t x = false) ->
  exists msg, parse_step audio_time (self, n) t = ([], Raise (BluetoothError msg)).
Proof.
  intros [(msg & Hrx & Hmsg)|(c & d & Hrx & Hdec & Htx)]; unfold parse_step, read_at;
    rewrite Hrx.
  - destruct (String.eqb_spec msg "timed out"); [contradiction|].
    eexists; reflexivity.
  - rewrite Hdec. cbn [bind]. rewrite bind_act_ret_l.
    destruct (dispatch_send_fails self n t (c :: d) Htx) as (msg & ->).
    eexists; reflexivity.
Qed.

(** X20.  A transport failure on the control link is survived: when the
    link has just been opened and, in the first turn, the receive fails with
    a [BluetoothError] other than a timeout, or a chunk arrives and the send
    of the answer fails, the supervisor's turn logs a warning, sleeps one
    cooldown, closes the control socket and returns with no session open. *)
Theorem link_failure_restarts_cycle (self : BluetoothAudio) (c : cycle) (ch : Z)
        (t : tick) (rest : list tick) :
  audio self = None ->
  resolve_channel (found c) = Some ch ->
  ch <> 0 ->
  service_ok c = true ->
  turns c = t :: rest ->
  (exists msg, rx t = Raise (BluetoothError msg) /\ msg <> "timed out"%string)
  \/ (exists x d, rx t = Return (x :: d) /\ decode_utf8 (x :: d) = Return tt
                  /\ forall y, tx_ok t y = false) ->
  exists self',
    worker_iteration self c
    = ([FindService; ConnectService ch;
        Warning "Service level connection disconnected"; Sleep HFP_TIMEOUT;
        CloseService],
       Return self')
    /\ audio self' = None /\ hfp self' = None /\ channel self' = Some ch.
Proof.
  intros Ha Hch Hnz Hok Hturns Hfail.
  unfold worker_iteration, find_channel.
  cbn [bind_act emit ret app]. cbn [channel set_channel]. rewrite Hch.
  cbn [truthy]. destruct (Z.eqb_spec ch 0) as [|_]; [contradiction|].
  cbn [negb]. unfold connect_service_level. cbn [channel set_channel].
  rewrite Hok. cbn [bind_act emit ret app hfp set_hfp].
  unfold parse_channel. rewrite Hturns. cbn [parse_loop].
  destruct (parse_step_link_failure
              (started c + HFP_CONNECT_AUDIO_TIMEOUT)
              (set_hfp (set_channel self (Some ch)) (Some RFCOMM_socket)) true t Hfail)
    as (msg & ->).
  cbn [fst snd bind_act emit ret app]. unfold cleanup.
  cbn [audio hfp set_hfp set_channel]. rewrite Ha.
  eexists. split; [reflexivity|]. repeat split.
Qed.

Lemma link_failure_restarts_cycle_witness :
  exists self',
    worker_iteration init
      (mkCycle [mkService [HANDSFREE_CLASS] 7] true 0
               [mkTick (Raise (BluetoothError "Connection reset by peer"))
                       (fun _ => true) 1 refused refused])
    = ([FindService; ConnectService 7;
        Warning "Service level connection disconnected"; Sleep HFP_TIMEOUT;
        CloseService],
       Return self')
    /\ audio self' = None /\ hfp self' = None /\ channel self' = Some 7.
Proof.
  apply (link_failure_restarts_cycle
           init
           (mkCycle [mkService [HANDSFREE_CLASS] 7] true 0
                    [mkTick (Raise (BluetoothError "Connection reset by peer"))
                            (fun _ => true) 1 refused refused])
           7
           (mkTick (Raise (BluetoothError "Connection reset by peer"))
                   (fun _ => true) 1 refused refused)
           []).
  - reflexivity.
  - reflexivity.
  - lia.
  - reflexivity.
  - reflexivity.
  - left. eexists. split; [reflexivity|discriminate].
Defined.

(** ** The warning after [AT+CMER] *)



